(** * Story tree (tree.h): a shallow embedding and its properties

    The header defines [Node<U>] (id, data, children pointers) and [Tree<T>]
    (a root pointer and an [unordered_map] from ids to owned node pointers)
    with [createRoot], [addNode], [findNode], [printAll], [playGame] and the
    destructor.  Nodes live on the heap and are shared by address, so the
    embedding keeps an explicit heap of nodes next to the two fields of the
    tree object; [cout] is a string that is appended to and [cin] is the list
    of lines still to be read. *)

From Stdlib Require Import ZArith Ascii String List.
From stdpp Require Import gmap strings list fin_maps sorting pretty.

Local Open Scope Z_scope.

(** ** Characters, [trim_copy] and the numeric conversions *)

Module Chars.

Definition code (c : ascii) : N := N_of_ascii c.

(** [isspace] in the "C" locale: space, \t, \n, \v, \f, \r. *)
Definition isspace (c : ascii) : bool :=
  (N.eqb (code c) 32 || (N.leb 9 (code c) && N.leb (code c) 13))%bool.

(** [isdigit]: '0' .. '9'. *)
Definition isdigit (c : ascii) : bool :=
  (N.leb 48 (code c) && N.leb (code c) 57)%bool.

Definition digit_value (c : ascii) : Z := Z.of_N (code c) - 48.

(** First loop of [trim_copy]: advance [start] over leading white space. *)
Fixpoint skip_front (s : string) : string :=
  match s with
  | EmptyString => EmptyString
  | String c s' => if isspace c then skip_front s' else s
  end.

(** Second loop of [trim_copy]: move [end] back over trailing white space. *)
Fixpoint drop_back (s : string) : string :=
  match s with
  | EmptyString => EmptyString
  | String c s' =>
      match drop_back s' with
      | EmptyString => if isspace c then EmptyString else String c EmptyString
      | r => String c r
      end
  end.

Definition trim_copy (s : string) : string := drop_back (skip_front s).

(** The test [for (char c : s) if (!isdigit(c)) ...] used by both callers. *)
Fixpoint all_digits (s : string) : bool :=
  match s with
  | EmptyString => true
  | String c s' => if isdigit c then all_digits s' else false
  end.

Definition is_empty (s : string) : bool :=
  match s with EmptyString => true | _ => false end.

(** Decimal value of a run of digits, most significant first. *)
Fixpoint digits_value (acc : Z) (s : string) : Z :=
  match s with
  | EmptyString => acc
  | String c s' => digits_value (10 * acc + digit_value c) s'
  end.

(** The longest prefix of digits, as [strtol] consumes it. *)
Fixpoint digit_prefix (s : string) : string :=
  match s with
  | EmptyString => EmptyString
  | String c s' => if isdigit c then String c (digit_prefix s') else EmptyString
  end.

Inductive exn := invalid_argument | out_of_range.

Definition INT_MIN : Z := - 2 ^ 31.
Definition INT_MAX : Z := 2 ^ 31 - 1.
Definition LLONG_MIN : Z := - 2 ^ 63.
Definition LLONG_MAX : Z := 2 ^ 63 - 1.

(** [std::stoi] / [std::stoll] in base 10: skip white space, take an optional
    sign and the digits that follow; no digit at all throws
    [invalid_argument], a value outside [lo, hi] throws [out_of_range]. *)
Definition take_sign (s : string) : bool * string :=
  match s with
  | String c r =>
      if Ascii.eqb c "-" then (true, r)
      else if Ascii.eqb c "+" then (false, r)
      else (false, s)
  | EmptyString => (false, s)
  end.

Definition sto (lo hi : Z) (s : string) : exn + Z :=
  let '(neg, s2) := take_sign (skip_front s) in
  let ds := digit_prefix s2 in
  if is_empty ds then inl invalid_argument
  else
    let v := digits_value 0 ds in
    let v := if neg then - v else v in
    if (v <? lo) || (hi <? v) then inl out_of_range else inr v.

Definition stoi : string -> exn + Z := sto INT_MIN INT_MAX.
Definition stoll : string -> exn + Z := sto LLONG_MIN LLONG_MAX.

End Chars.

Export Chars.

(** ** Nodes, the tree object and the free store *)

(** Addresses of heap cells. *)
Abbreviation loc := positive (only parsing).

(** A [Node<T>*]: [None] is [nullptr]. *)
Abbreviation ptr := (option positive) (only parsing).

(** What the code needs of the payload type: [T()] and its text, which is
    the string itself when [T] is [string] and [ss << data] otherwise. *)
Class Payload (T : Type) := {
  default_value : T;
  to_text : T -> string
}.

#[export] Instance string_payload : Payload string :=
  {| default_value := EmptyString; to_text := fun s => s |}.

Record Node (T : Type) := mkNode {
  id : string;
  data : T;
  children : list ptr
}.
Arguments mkNode {T} _ _ _.
Arguments id {T} _.
Arguments data {T} _.
Arguments children {T} _.

(** The two members of [Tree<T>], the heap cells allocated with [new], and
    the text written to [cout] so far. *)
Record State (T : Type) := mkState {
  root : ptr;
  nodesMap : gmap string ptr;
  heap : gmap loc (Node T);
  cout : string
}.
Arguments mkState {T} _ _ _ _.
Arguments root {T} _.
Arguments nodesMap {T} _.
Arguments heap {T} _.
Arguments cout {T} _.

(** [Tree() : root(nullptr)], nothing allocated, nothing printed. *)
Definition Tree_new {T} : State T := mkState None ∅ ∅ EmptyString.

(** The graph proper: everything but the output stream. *)
Definition graph {T} (w : State T) : ptr * gmap string ptr * gmap loc (Node T) :=
  (root w, nodesMap w, heap w).

(** Computations over the state; [None] stands for undefined behaviour
    (dereferencing or deleting a pointer that is null or not allocated). *)
Definition M (T A : Type) : Type := State T -> option (A * State T).

Definition ret {T A} (a : A) : M T A := fun w => Some (a, w).
Definition bind {T A B} (c : M T A) (k : A -> M T B) : M T B :=
  fun w => match c w with
           | Some (a, w') => k a w'
           | None => None
           end.
Definition fault {T A} : M T A := fun _ => None.

Declare Scope tree_scope.
Delimit Scope tree_scope with tree.
Notation "'let*' x ':=' c1 'in' c2" := (bind c1 (fun x => c2))
  (at level 10, x name, c1 at level 100, c2 at level 200) : tree_scope.
Notation "c1 >> c2" := (bind c1 (fun _ => c2))
  (at level 90, right associativity) : tree_scope.
Local Open Scope tree_scope.

Definition endl : string := String (ascii_of_N 10) EmptyString.

Section Primitives.
Context {T : Type}.

(** [nodesMap.find(k)]: [None] is [end()]. *)
Definition find (k : string) : M T (option ptr) :=
  fun w => Some (nodesMap w !! k, w).

(** [nodesMap[k]] read: a missing key is inserted with a null pointer. *)
Definition index (k : string) : M T ptr :=
  fun w => match nodesMap w !! k with
           | Some p => Some (p, w)
           | None => Some (None, mkState (root w) (<[k := None]> (nodesMap w)) (heap w) (cout w))
           end.

(** [nodesMap[k] = p]. *)
Definition assign (k : string) (p : ptr) : M T unit :=
  fun w => Some (tt, mkState (root w) (<[k := p]> (nodesMap w)) (heap w) (cout w)).

Definition map_empty : M T bool :=
  fun w => Some (bool_decide (nodesMap w = ∅), w).

Definition map_clear : M T unit :=
  fun w => Some (tt, mkState (root w) ∅ (heap w) (cout w)).

Definition get_root : M T ptr := fun w => Some (root w, w).

Definition set_root (p : ptr) : M T unit :=
  fun w => Some (tt, mkState p (nodesMap w) (heap w) (cout w)).

(** [new Node<T>(nodeID, value)]: an address that is not in use. *)
Definition new_Node (nodeID : string) (value : T) : M T ptr :=
  fun w => let l := fresh (dom (heap w)) in
           Some (Some l, mkState (root w) (nodesMap w)
                           (<[l := mkNode nodeID value []]> (heap w)) (cout w)).

(** Reading through a pointer. *)
Definition load (p : ptr) : M T (Node T) :=
  fun w => match p with
           | Some l => match heap w !! l with
                       | Some n => Some (n, w)
                       | None => None
                       end
           | None => None
           end.

(** Writing through a pointer. *)
Definition store (p : ptr) (n : Node T) : M T unit :=
  fun w => match p with
           | Some l => match heap w !! l with
                       | Some _ => Some (tt, mkState (root w) (nodesMap w) (<[l := n]> (heap w)) (cout w))
                       | None => None
                       end
           | None => None
           end.

(** [delete p]: a no-op on [nullptr], otherwise [p] must be allocated. *)
Definition delete_Node (p : ptr) : M T unit :=
  fun w => match p with
           | Some l => match heap w !! l with
                       | Some _ => Some (tt, mkState (root w) (nodesMap w) (delete l (heap w)) (cout w))
                       | None => None
                       end
           | None => Some (tt, w)
           end.

(** [cout << s]. *)
Definition print (s : string) : M T unit :=
  fun w => Some (tt, mkState (root w) (nodesMap w) (heap w) (cout w +:+ s)).

Definition println (s : string) : M T unit := print (s +:+ endl).

End Primitives.

(** ** The member functions of [Tree<T>] *)

Section Tree.
Context {T : Type} `{Payload T}.

(** [createRoot(id, value)]. *)
Definition createRoot (id_ : string) (value : T) : M T unit :=
  let* it := find id_ in
  let* node :=
    match it with
    | Some node =>
        let* n := load node in
        store node (mkNode (id n) value (children n)) >> ret node
    | None =>
        let* node := new_Node id_ value in
        assign id_ node >> ret node
    end in
  set_root node.

(** The scan [for (Node<T>* pch : parent->children) if (pch == child) ...]. *)
Definition has_child (chs : list ptr) (child : ptr) : bool :=
  existsb (fun pch => bool_decide (pch = child)) chs.

(** [addNode(parentID, childID, value)]. *)
Definition addNode (parentID childID : string) (value : T) : M T unit :=
  let* pit := find parentID in
  let* parent :=
    match pit with
    | Some parent => ret parent
    | None =>
        let* parent := new_Node parentID default_value in
        assign parentID parent >> ret parent
    end in
  let* cit := find childID in
  let* child :=
    match cit with
    | Some child => ret child
    | None =>
        let* child := new_Node childID value in
        assign childID child >> ret child
    end in
  let* pn := load parent in
  let already := has_child (children pn) child in
  if already then ret tt
  else store parent (mkNode (id pn) (data pn) (children pn ++ [child])).

(** [findNode(id)]. *)
Definition findNode (id_ : string) : M T ptr :=
  let* it := find id_ in
  match it with
  | Some node => ret node
  | None => ret None
  end.

(** *** [printAll] *)

(** The key paired with an id in [numericKeys]. *)
Definition numericKey (s : string) : Z :=
  let allDigits := (negb (is_empty s) && all_digits s)%bool in
  if allDigits then
    match stoll s with
    | inr val => val
    | inl _ => LLONG_MAX
    end
  else LLONG_MAX.

(** The lambda handed to [std::sort]. *)
Definition keyLess (a b : string * Z) : bool :=
  if negb (a.2 =? b.2) then a.2 <? b.2 else String.ltb a.1 b.1.

(** [std::sort(first, last, comp)], as an insertion sort: on the distinct
    ids of a map every comparison sort with [keyLess] gives the same vector
    (see [std_sort_unique]). *)
Fixpoint sorted_insert {A} (comp : A -> A -> bool) (x : A) (l : list A) : list A :=
  match l with
  | [] => [x]
  | y :: l' => if comp x y then x :: l else y :: sorted_insert comp x l'
  end.

Definition std_sort {A} (comp : A -> A -> bool) (l : list A) : list A :=
  foldr (sorted_insert comp) [] l.

(** [for (Node<T>* c : node->children) cout << "  Child -> " << c->id << endl;] *)
Fixpoint print_children (chs : list ptr) : M T unit :=
  match chs with
  | [] => ret tt
  | c :: chs' =>
      let* cn := load c in
      print "  Child -> " >> print (id cn) >> print endl >>
      print_children chs'
  end.

(** One round of the printing loop of [printAll]. *)
Definition print_entry (p : string * Z) : M T unit :=
  let id_ := p.1 in
  let* node := index id_ in
  let* n := load node in
  let dataStr := trim_copy (to_text (data n)) in
  print "Node " >> print id_ >> print ": " >> print dataStr >> print endl >>
  (match children n with
   | [] => print "  Child -> (none)" >> print endl
   | _ => print_children (children n)
   end) >>
  print endl.

Fixpoint print_entries (ps : list (string * Z)) : M T unit :=
  match ps with
  | [] => ret tt
  | p :: ps' => print_entry p >> print_entries ps'
  end.

(** [printAll()], given the order in which the [unordered_map] happens to
    enumerate its entries. *)
Definition printAll_in (order : list (string * ptr)) : M T unit :=
  let* e := map_empty in
  if (e : bool) then print "Tree is empty." >> print endl
  else
    let ids := order.*1 in
    let numericKeys := map (fun s => (s, numericKey s)) ids in
    let numericKeys := std_sort keyLess numericKeys in
    print "===== Story Tree =====" >> print endl >>
    print_entries numericKeys >>
    print "======================" >> print endl.

Definition printAll : M T unit :=
  fun w => printAll_in (map_to_list (nodesMap w)) w.

(** *** [playGame] *)

(** The loop printing the numbered options, from index [i]. *)
Fixpoint print_options (chs : list ptr) (i : nat) : M T unit :=
  match chs with
  | [] => ret tt
  | child :: chs' =>
      let* cn := load child in
      let childText := trim_copy (to_text (data cn)) in
      print (pretty (i + 1)%nat) >> print ". " >> print childText >> print endl >>
      print_options chs' (S i)
  end.

(** [static_cast<size_t>(choice)] on a 64-bit [size_t]. *)
Definition to_size_t (z : Z) : Z := z mod 2 ^ 64.

(** From the trimming of the line read to the end of the loop body: the
    result is the node the next round starts from, which is [current] itself
    on every [continue]. *)
Definition select (current : ptr) (line : string) : M T ptr :=
  let input := trim_copy line in
  if is_empty input then
    print "Please enter a number corresponding to your choice." >> print endl >>
    ret current
  else if negb (all_digits input) then
    print "Invalid selection. Please enter a number." >> print endl >>
    ret current
  else
    match stoi input with
    | inl _ =>
        print "Invalid selection. Please enter a valid number." >> print endl >>
        ret current
    | inr choice =>
        let* cur := load current in
        if (choice <? 1) || (Z.of_nat (length (children cur)) <? to_size_t choice) then
          print "Choice out of range. Please select a valid option." >> print endl >>
          ret current
        else
          match children cur !! Z.to_nat (choice - 1) with
          | Some next => print endl >> ret next
          | None => fault
          end
    end.

(** The [while (true)] loop; [input] is what [cin] still holds, and
    [getline] fails once it is used up. *)
Fixpoint playLoop (input : list string) (current : ptr) : M T unit :=
  let* cur := load current in
  let currentText := trim_copy (to_text (data cur)) in
  print currentText >> print endl >>
  match children cur with
  | [] =>
      print "There are no further paths." >> print endl >>
      print "Your journey ends here." >> print endl >> print endl
  | _ =>
      print "Choose your next action:" >> print endl >>
      print_options (children cur) 0 >>
      print "Selection: " >>
      match input with
      | [] =>
          print endl >> print "Input error or EOF. Ending adventure." >> print endl
      | line :: rest =>
          let* next := select current line in
          playLoop rest next
      end
  end.

(** [playGame()]. *)
Definition playGame (input : list string) : M T unit :=
  let* r := get_root in
  match r with
  | None => print "No root node. Cannot play game." >> print endl
  | Some _ =>
      let current := r in
      print "===== Begin Adventure =====" >> print endl >> print endl >>
      playLoop input current >>
      print "===== Adventure Complete =====" >> print endl
  end.

(** *** [~Tree] *)

(** [for (auto &p : nodesMap) delete p.second;] in enumeration order. *)
Fixpoint delete_all (order : list (string * ptr)) : M T unit :=
  match order with
  | [] => ret tt
  | p :: order' => delete_Node p.2 >> delete_all order'
  end.

Definition Tree_destroy_in (order : list (string * ptr)) : M T unit :=
  delete_all order >> map_clear >> set_root None.

Definition Tree_destroy : M T unit :=
  fun w => Tree_destroy_in (map_to_list (nodesMap w)) w.

(** *** Construction scripts *)

Inductive call :=
  | CreateRoot (id_ : string) (value : T)
  | AddNode (parentID childID : string) (value : T).

Definition run_call (c : call) : M T unit :=
  match c with
  | CreateRoot i v => createRoot i v
  | AddNode p c v => addNode p c v
  end.

Fixpoint run_calls (cs : list call) : M T unit :=
  match cs with
  | [] => ret tt
  | c :: cs' => run_call c >> run_calls cs'
  end.

End Tree.


(** ** Vocabulary of the statements *)

Section Observations.
Context {T : Type} `{Payload T}.

(** The state after [s] has been written to [cout]; the graph is as before. *)
Definition emit (s : string) (w : State T) : State T :=
  mkState (root w) (nodesMap w) (heap w) (cout w +:+ s).

(** [c] returns [a] and writes exactly [s], on every state holding graph [g],
    and leaves that graph as it is. *)
Definition yields {A} (g : ptr * gmap string ptr * gmap loc (Node T))
    (c : M T A) (a : A) (s : string) : Prop :=
  forall w, graph w = g -> c w = Some (a, emit s w).

Definition deref (h : gmap loc (Node T)) (p : ptr) : option (Node T) :=
  p ≫= fun l => h !! l.

(** The node registered under an id, and its payload. *)
Definition node_at (w : State T) (k : string) : option (Node T) :=
  nodesMap w !! k ≫= deref (heap w).

Definition payload (w : State T) (k : string) : option T :=
  data <$> node_at w k.

(** The invariant of the graphs built by [createRoot] and [addNode]. *)
Record wf (w : State T) : Prop := mk_wf {
  wf_registry : forall k p, nodesMap w !! k = Some p ->
      exists l n, p = Some l /\ heap w !! l = Some n /\ id n = k;
  wf_owned : forall l n, heap w !! l = Some n ->
      nodesMap w !! id n = Some (Some l);
  wf_children : forall l n c, heap w !! l = Some n -> c ∈ children n ->
      exists l', c = Some l' /\ is_Some (heap w !! l');
  wf_nodup : forall l n, heap w !! l = Some n -> NoDup (children n);
  wf_root : forall l, root w = Some l -> is_Some (heap w !! l)
}.

(** The graphs a construction script can build from the empty tree. *)
Definition reachable (w : State T) : Prop :=
  exists cs, run_calls cs Tree_new = Some (tt, w).

(** The two "ensure ... exists" steps of [addNode] share one shape: the
    pointer found under [k], or a node allocated with payload [v] and
    registered under [k]. *)
Definition ensure_node (k : string) (v : T) (w : State T) : ptr * State T :=
  match nodesMap w !! k with
  | Some p => (p, w)
  | None =>
      let l := fresh (dom (heap w)) in
      (Some l, mkState (root w) (<[k := Some l]> (nodesMap w))
                 (<[l := mkNode k v []]> (heap w)) (cout w))
  end.

(** The end of [addNode]: the scan for a duplicate and the [push_back]. *)
Definition link_child (parent child : ptr) : M T unit :=
  let* pn := load parent in
  let already := has_child (children pn) child in
  if already then ret tt
  else store parent (mkNode (id pn) (data pn) (children pn ++ [child])).

(** From [w] to [w']: every registry entry is kept, and every node keeps
    its address, id and payload. *)
Definition grows (w w' : State T) : Prop :=
  (forall k q, nodesMap w !! k = Some q -> nodesMap w' !! k = Some q) /\
  (forall l n, heap w !! l = Some n ->
     exists n', heap w' !! l = Some n' /\ id n' = id n /\ data n' = data n).

(** *** Text of a listing *)

Fixpoint children_text (h : gmap loc (Node T)) (chs : list ptr) : string :=
  match chs with
  | [] => EmptyString
  | c :: chs' =>
      match deref h c with
      | Some cn => "  Child -> " +:+ id cn +:+ endl +:+ children_text h chs'
      | None => EmptyString
      end
  end.

Definition entry_text (w : State T) (k : string) : string :=
  match node_at w k with
  | Some n =>
      "Node " +:+ k +:+ ": " +:+ trim_copy (to_text (data n)) +:+ endl +:+
      (match children n with
       | [] => "  Child -> (none)" +:+ endl
       | _ => children_text (heap w) (children n)
       end) +:+ endl
  | None => EmptyString
  end.

Fixpoint entries_text (w : State T) (ks : list string) : string :=
  match ks with
  | [] => EmptyString
  | k :: ks' => entry_text w k +:+ entries_text w ks'
  end.

Definition listing_text (w : State T) (ks : list string) : string :=
  "===== Story Tree =====" +:+ endl +:+ entries_text w ks +:+
  "======================" +:+ endl.

(** The ids in the order in which [printAll] walks [numericKeys]. *)
Definition print_order (order : list (string * ptr)) : list string :=
  (std_sort keyLess (map (fun s => (s, numericKey s)) order.*1)).*1.

(** *** Text of a prompt *)

Fixpoint options_text (h : gmap loc (Node T)) (chs : list ptr) (i : nat) : string :=
  match chs with
  | [] => EmptyString
  | c :: chs' =>
      match deref h c with
      | Some cn =>
          pretty (i + 1)%nat +:+ ". " +:+ trim_copy (to_text (data cn)) +:+ endl +:+
          options_text h chs' (S i)
      | None => EmptyString
      end
  end.

(** What every round of the loop writes at a node with children, up to and
    including the prompt. *)
Definition prompt_text (h : gmap loc (Node T)) (cur : Node T) : string :=
  trim_copy (to_text (data cur)) +:+ endl +:+
  "Choose your next action:" +:+ endl +:+
  options_text h (children cur) 0 +:+ "Selection: ".

End Observations.

(** *** The order of a listing, in the words of the specification *)

Definition lex_lt (a b : string) : Prop := String.compare a b = Lt.

(** Ids made of decimal digits only. *)
Definition numeric (s : string) : Prop :=
  is_empty s = false /\ all_digits s = true.

Definition value (s : string) : Z := digits_value 0 s.

(** Numeric ids whose value is below the largest [long long]. *)
Definition below_max (s : string) : Prop :=
  numeric s /\ value s < LLONG_MAX.

(** [a] is listed before [b]. *)
Definition listed_before (a b : string) : Prop :=
  (below_max a /\ below_max b /\
     (value a < value b \/ (value a = value b /\ lex_lt a b)))
  \/ (below_max a /\ ~ below_max b)
  \/ (~ below_max a /\ ~ below_max b /\ lex_lt a b).

(** [needle] occurs in [hay]. *)
Fixpoint contains (needle hay : string) : bool :=
  (String.prefix needle hay ||
   match hay with
   | EmptyString => false
   | String _ hay' => contains needle hay'
   end)%bool.

(** *** Sample graphs, with [string] payloads *)

Definition built (cs : list (@call string)) : State string :=
  match run_calls cs Tree_new with
  | Some (_, w) => w
  | None => Tree_new
  end.

(** Two parents share node "2"; the last call repeats an edge. *)
Definition story : list (@call string) :=
  [CreateRoot "1" " start ";
   AddNode "1" "2" "left";
   AddNode "1" "10" "right";
   AddNode "apple" "2" "x";
   AddNode "1" "2" "again"].

(** An id with a sign next to one too large for [long long]. *)
Definition signed_ids : list (@call string) :=
  [CreateRoot "-1" "a"; AddNode "-1" "99999999999999999999" "b"].

(** A node linked to itself before it exists. *)
Definition self_link : list (@call string) :=
  [AddNode "a" "a" "x"].

(** "Not after": the order [std::sort] establishes between neighbours. *)
Definition keyLe (a b : string * Z) : Prop := keyLess b a = false.

(** An id with the key [printAll] gives it. *)
Definition keyed (s : string) : string * Z := (s, numericKey s).

(** *** Vocabulary for further properties of the code *)

(** White space only. *)
Fixpoint all_space (s : string) : bool :=
  match s with
  | EmptyString => true
  | String c s' => (isspace c && all_space s')%bool
  end.

Definition first_char (s : string) : option ascii :=
  match s with
  | EmptyString => None
  | String c _ => Some c
  end.

Fixpoint last_char (s : string) : option ascii :=
  match s with
  | EmptyString => None
  | String c EmptyString => Some c
  | String _ s' => last_char s'
  end.

(** The ids a construction call names. *)
Definition call_ids {T} (c : @call T) : list string :=
  match c with
  | CreateRoot k _ => [k]
  | AddNode p c _ => [p; c]
  end.

Definition mentioned {T} (cs : list (@call T)) : list string :=
  concat (map call_ids cs).

(** The id of the last [createRoot] of a script, if it has one. *)
Fixpoint last_root {T} (cs : list (@call T)) : option string :=
  match cs with
  | [] => None
  | c :: cs' =>
      match last_root cs' with
      | Some k => Some k
      | None => match c with CreateRoot k _ => Some k | AddNode _ _ _ => None end
      end
  end.

(** The call is a [createRoot] on id [k]. *)
Definition roots_at {T} (k : string) (c : @call T) : Prop :=
  match c with
  | CreateRoot k' _ => k' = k
  | AddNode _ _ _ => False
  end.

(** From [w] to [w']: every registry entry is kept, and every node keeps
    its address and id, and its children as the first children it has
    afterwards. *)
Definition keeps_edges {T} (w w' : State T) : Prop :=
  (forall k q, nodesMap w !! k = Some q -> nodesMap w' !! k = Some q) /\
  (forall l n, heap w !! l = Some n ->
     exists n', heap w' !! l = Some n' /\ id n' = id n /\
       children n `prefix_of` children n').

(** The two ways in which the loop of [playGame] ends. *)
Definition leaf_notice : string :=
  "There are no further paths." +:+ endl +:+
  "Your journey ends here." +:+ endl +:+ endl.

Definition eof_notice : string :=
  endl +:+ "Input error or EOF. Ending adventure." +:+ endl.

(** * Properties *)

(** ** Strings and conversions *)

Lemma append_assoc (a b c : string) : (a +:+ b) +:+ c = a +:+ (b +:+ c).
Proof.
  induction a as [|x a IH]; [reflexivity|].
  change (String x ((a +:+ b) +:+ c) = String x (a +:+ b +:+ c)).
  now rewrite IH.
Qed.

Lemma append_nil_r (a : string) : a +:+ EmptyString = a.
Proof.
  induction a as [|x a IH]; [reflexivity|].
  change (String x (a +:+ EmptyString) = String x a).
  now rewrite IH.
Qed.

Lemma isdigit_range c : isdigit c = true <-> (48 <= code c <= 57)%N.
Proof.
  unfold isdigit. rewrite andb_true_iff, !N.leb_le. tauto.
Qed.

Lemma isdigit_not_space c : isdigit c = true -> isspace c = false.
Proof.
  rewrite isdigit_range. unfold isspace. intros [Hlo Hhi].
  apply orb_false_iff. split.
  - apply N.eqb_neq. lia.
  - apply andb_false_iff. right. apply N.leb_gt. lia.
Qed.

Lemma isdigit_not_sign c (d : ascii) :
  isdigit c = true -> (code d < 48)%N -> Ascii.eqb c d = false.
Proof.
  rewrite isdigit_range. intros Hc Hd.
  apply Ascii.eqb_neq. intros ->. lia.
Qed.

Lemma digit_value_range c : isdigit c = true -> 0 <= digit_value c <= 9.
Proof. rewrite isdigit_range. unfold digit_value. lia. Qed.

Lemma skip_front_digits s : all_digits s = true -> skip_front s = s.
Proof.
  destruct s as [|c s]; simpl; [reflexivity|].
  destruct (isdigit c) eqn:Hc; [|discriminate].
  now rewrite (isdigit_not_space c Hc).
Qed.

Lemma take_sign_digits s : all_digits s = true -> take_sign s = (false, s).
Proof.
  destruct s as [|c s]; simpl; [reflexivity|].
  destruct (isdigit c) eqn:Hc; [|discriminate]. intros _.
  rewrite (isdigit_not_sign c "-" Hc) by (vm_compute; reflexivity).
  now rewrite (isdigit_not_sign c "+" Hc) by (vm_compute; reflexivity).
Qed.

Lemma digit_prefix_digits s : all_digits s = true -> digit_prefix s = s.
Proof.
  induction s as [|c s IH]; simpl; [reflexivity|].
  destruct (isdigit c); [|discriminate]. intros Hs. now rewrite IH.
Qed.

Lemma digits_value_lower acc s :
  all_digits s = true -> 0 <= acc -> acc <= digits_value acc s.
Proof.
  revert acc. induction s as [|c s IH]; simpl; intros acc Hs Hacc; [lia|].
  destruct (isdigit c) eqn:Hc; [|discriminate].
  pose proof (digit_value_range c Hc).
  specialize (IH (10 * acc + digit_value c) Hs). lia.
Qed.

Lemma value_nonneg s : all_digits s = true -> 0 <= value s.
Proof. intros Hs. apply (digits_value_lower 0 s Hs). lia. Qed.

(** On a non-empty run of digits the conversions return its value, or throw
    [out_of_range] when it is above the largest value of the type. *)
Lemma sto_digits lo hi s :
  is_empty s = false -> all_digits s = true -> lo <= 0 ->
  sto lo hi s = if hi <? value s then inl out_of_range else inr (value s).
Proof.
  intros Hne Hs Hlo. unfold sto.
  rewrite (skip_front_digits s Hs), (take_sign_digits s Hs).
  rewrite (digit_prefix_digits s Hs), Hne.
  pose proof (value_nonneg s Hs) as Hv. fold (value s).
  replace (value s <? lo) with false by (symmetry; apply Z.ltb_ge; lia).
  reflexivity.
Qed.

Lemma stoi_digits s :
  is_empty s = false -> all_digits s = true ->
  stoi s = if INT_MAX <? value s then inl out_of_range else inr (value s).
Proof. intros. apply sto_digits; [assumption..|]. now vm_compute. Qed.

Lemma stoll_digits s :
  is_empty s = false -> all_digits s = true ->
  stoll s = if LLONG_MAX <? value s then inl out_of_range else inr (value s).
Proof. intros. apply sto_digits; [assumption..|]. now vm_compute. Qed.

Lemma to_size_t_small z : 0 <= z <= INT_MAX -> to_size_t z = z.
Proof.
  intros Hz. unfold to_size_t. apply Z.mod_small.
  unfold INT_MAX in Hz. lia.
Qed.

(** ** The comparison of [printAll] and [std::sort] *)

Lemma ltb_lex_lt a b : String.ltb a b = true <-> lex_lt a b.
Proof.
  unfold String.ltb, lex_lt. destruct (String.compare a b); split; congruence.
Qed.

Lemma ltb_false_le a b : String.ltb b a = false <-> String.le a b.
Proof.
  unfold String.ltb, String.le, String.leb.
  rewrite (String.compare_antisym a b).
  destruct (String.compare b a); simpl; split; intros; done.
Qed.

Lemma lex_lt_le_ne a b : lex_lt a b <-> String.le a b /\ a <> b.
Proof.
  unfold lex_lt, String.le, String.leb. split.
  - intros Hlt. rewrite Hlt. split; [done|].
    intros ->. pose proof (String.compare_antisym b b) as Ha.
    rewrite Hlt in Ha. discriminate.
  - intros [Hle Hne]. destruct (String.compare a b) eqn:Hc; [|done|done].
    apply String.compare_eq_iff in Hc. contradiction.
Qed.

Lemma keyLess_spec a b :
  keyLess a b = true <-> a.2 < b.2 \/ (a.2 = b.2 /\ lex_lt a.1 b.1).
Proof.
  unfold keyLess. destruct (Z.eqb_spec a.2 b.2) as [He|Hne]; simpl.
  - rewrite ltb_lex_lt. split; [auto|]. intros [?|[_ ?]]; [lia|done].
  - rewrite Z.ltb_lt. split; [auto|]. intros [?|[? _]]; [done|lia].
Qed.

Lemma keyLe_spec a b :
  keyLe a b <-> a.2 < b.2 \/ (a.2 = b.2 /\ String.le a.1 b.1).
Proof.
  unfold keyLe, keyLess. destruct (Z.eqb_spec b.2 a.2) as [He|Hne]; simpl.
  - rewrite ltb_false_le. split; [auto|]. intros [?|[_ ?]]; [lia|done].
  - rewrite Z.ltb_ge. split; [lia|]. intros [?|[? _]]; lia.
Qed.

#[local] Instance keyLe_trans : Transitive keyLe.
Proof.
  intros a b c. rewrite !keyLe_spec.
  intros [?|[? Hab]] [?|[? Hbc]]; try (left; lia).
  right. split; [lia|]. by etrans.
Qed.

#[local] Instance keyLe_antisym : AntiSymm (=) keyLe.
Proof.
  intros [a ka] [b kb]. rewrite !keyLe_spec. simpl.
  intros [?|[? Hab]] [?|[? Hba]]; try lia.
  f_equal; [|done]. by apply (anti_symm String.le).
Qed.

Lemma keyLess_asym a b : keyLess a b = true -> keyLe a b.
Proof.
  rewrite keyLess_spec, keyLe_spec. intros [?|[? Hlt]]; [by left|].
  right. split; [done|]. by apply lex_lt_le_ne in Hlt as [? _].
Qed.

Lemma keyLe_strict a b : keyLe a b -> a <> b -> keyLess a b = true.
Proof.
  destruct a as [a ka], b as [b kb].
  rewrite keyLess_spec, keyLe_spec. simpl. intros [?|[-> Hle]] Hne; [by left|].
  right. split; [done|]. apply lex_lt_le_ne. split; [done|]. congruence.
Qed.

Section Sort.
Context {A : Type} (comp : A -> A -> bool).
Let notAfter (a b : A) : Prop := comp b a = false.
Hypothesis comp_asym : forall a b, comp a b = true -> notAfter a b.
Hypothesis notAfter_trans : Transitive notAfter.

Lemma sorted_insert_perm x l : sorted_insert comp x l ≡ₚ x :: l.
Proof using Type.
  induction l as [|y l IH]; simpl; [done|].
  destruct (comp x y); [done|]. rewrite IH. apply Permutation_swap.
Qed.

Lemma std_sort_perm l : std_sort comp l ≡ₚ l.
Proof using Type.
  induction l as [|x l IH]; simpl; [done|].
  unfold std_sort in *. simpl. by rewrite sorted_insert_perm, IH.
Qed.

Lemma sorted_insert_sorted x l :
  StronglySorted notAfter l -> StronglySorted notAfter (sorted_insert comp x l).
Proof using comp_asym notAfter_trans.
  induction 1 as [|y l Hl IH Hy]; simpl.
  - repeat constructor.
  - destruct (comp x y) eqn:Hxy.
    + constructor; [by constructor|].
      pose proof (comp_asym _ _ Hxy) as Hle.
      constructor; [done|].
      eapply Forall_impl; [exact Hy|]. intros z Hz. by etrans.
    + constructor; [done|].
      rewrite sorted_insert_perm. by constructor.
Qed.

Lemma std_sort_sorted l : StronglySorted notAfter (std_sort comp l).
Proof using comp_asym notAfter_trans.
  induction l as [|x l IH]; [constructor|].
  by apply sorted_insert_sorted.
Qed.

End Sort.

(** Whatever order the map enumerates its ids in, sorting gives one vector. *)
Lemma std_sort_unique (l1 l2 : list (string * Z)) :
  l1 ≡ₚ l2 -> std_sort keyLess l1 = std_sort keyLess l2.
Proof.
  intros Hp. apply (StronglySorted_unique keyLe).
  - apply std_sort_sorted; [apply keyLess_asym | apply _].
  - apply std_sort_sorted; [apply keyLess_asym | apply _].
  - by rewrite !std_sort_perm.
Qed.

(** Any vector that holds the same pairs and that the comparison finds in
    order is the one [std_sort] computes: the choice of algorithm is free. *)
Lemma std_sort_any (l r : list (string * Z)) :
  r ≡ₚ l -> StronglySorted keyLe r -> r = std_sort keyLess l.
Proof.
  intros Hp Hs. apply (StronglySorted_unique keyLe); [done| |].
  - apply std_sort_sorted; [apply keyLess_asym | apply _].
  - by rewrite std_sort_perm.
Qed.

Lemma StronglySorted_strict (l : list (string * Z)) :
  NoDup l -> StronglySorted keyLe l ->
  StronglySorted (fun a b => keyLess a b = true) l.
Proof.
  induction 2 as [|x l Hl IH Hx]; [constructor|].
  apply NoDup_cons in H as [Hnin Hnd].
  constructor; [by apply IH|].
  apply Forall_forall. intros y Hy.
  apply keyLe_strict; [by eapply Forall_forall in Hx|].
  intros ->. done.
Qed.

(** ** The sort key and the order of a listing *)

#[local] Instance below_max_dec s : Decision (below_max s).
Proof. unfold below_max, numeric. apply _. Defined.

Lemma numericKey_below s : below_max s -> numericKey s = value s.
Proof.
  intros [[Hne Hd] Hv]. unfold numericKey. rewrite Hne, Hd. simpl.
  rewrite (stoll_digits s Hne Hd).
  destruct (Z.ltb_spec LLONG_MAX (value s)); [lia | reflexivity].
Qed.

Lemma numericKey_other s : ~ below_max s -> numericKey s = LLONG_MAX.
Proof.
  intros Hnb. unfold numericKey.
  destruct (is_empty s) eqn:Hne; [reflexivity|].
  destruct (all_digits s) eqn:Hd; [|reflexivity]. simpl.
  rewrite (stoll_digits s Hne Hd).
  destruct (Z.ltb_spec LLONG_MAX (value s)) as [|Hle]; [reflexivity|].
  destruct (Z.eq_dec (value s) LLONG_MAX) as [|Hneq]; [done|].
  exfalso. apply Hnb. repeat split; [done..|lia].
Qed.

(** The lambda of [printAll], read on ids. *)
Lemma keyLess_listed a b :
  keyLess (keyed a) (keyed b) = true <-> listed_before a b.
Proof.
  rewrite keyLess_spec. unfold keyed, listed_before. simpl.
  destruct (decide (below_max a)) as [Ha|Ha], (decide (below_max b)) as [Hb|Hb].
  - rewrite (numericKey_below a Ha), (numericKey_below b Hb). tauto.
  - rewrite (numericKey_below a Ha), (numericKey_other b Hb).
    pose proof Ha as [_ Hv]. split; [tauto|]. intros _. by left.
  - rewrite (numericKey_other a Ha), (numericKey_below b Hb).
    pose proof Hb as [_ Hv]. split; [|tauto]. intros [?|[? _]]; lia.
  - rewrite (numericKey_other a Ha), (numericKey_other b Hb).
    split; [|tauto]. intros [?|[_ ?]]; [lia|tauto].
Qed.

Lemma print_order_perm (order : list (string * ptr)) :
  print_order order ≡ₚ order.*1.
Proof.
  unfold print_order. rewrite std_sort_perm.
  induction (order.*1) as [|s l IH]; simpl; [done|]. by rewrite IH.
Qed.

Lemma print_order_unique (order order' : list (string * ptr)) :
  order ≡ₚ order' -> print_order order = print_order order'.
Proof.
  intros Hp. unfold print_order. f_equal. apply std_sort_unique.
  by rewrite Hp.
Qed.

Lemma keyed_sorted_listed (r : list (string * Z)) :
  Forall (fun p => p = keyed p.1) r ->
  StronglySorted (fun a b => keyLess a b = true) r ->
  StronglySorted listed_before r.*1.
Proof.
  intros Hk. induction 1 as [|x r Hr IH Hx]; simpl; [constructor|].
  apply Forall_cons in Hk as [Hkx Hkr].
  constructor; [by apply IH|].
  apply Forall_fmap, Forall_forall. intros y Hy. simpl.
  apply keyLess_listed.
  rewrite <-Hkx. rewrite Forall_forall in Hkr. rewrite <-(Hkr y Hy).
  by eapply Forall_forall in Hx.
Qed.

Lemma print_order_sorted (order : list (string * ptr)) :
  NoDup order.*1 -> StronglySorted listed_before (print_order order).
Proof.
  intros Hnd. unfold print_order.
  set (l := map (fun s => (s, numericKey s)) order.*1).
  assert (Hperm : std_sort keyLess l ≡ₚ l) by apply std_sort_perm.
  assert (Hall : Forall (fun p => p = keyed p.1) l).
  { apply Forall_forall. intros p Hp. apply list_elem_of_In, in_map_iff in Hp.
    by destruct Hp as (s & <- & _). }
  assert (Hndl : NoDup l).
  { assert (Inj (=) (=) (fun s => (s, numericKey s))) by (by intros s1 s2 [= ->]).
    by apply (NoDup_fmap_2 (fun s => (s, numericKey s))). }
  apply keyed_sorted_listed.
  - by rewrite Hperm.
  - apply StronglySorted_strict; [by rewrite Hperm|].
    apply std_sort_sorted; [apply keyLess_asym | apply _].
Qed.

(** ** Reading the graph and writing to [cout] *)

Section Yields.
Context {T : Type} `{Payload T}.
Implicit Types (w : State T) (g : ptr * gmap string ptr * gmap loc (Node T)).

Lemma graph_emit s w : graph (emit s w) = graph w.
Proof. reflexivity. Qed.

Lemma emit_emit a b w : emit b (emit a w) = emit (a +:+ b) w.
Proof. unfold emit. simpl. f_equal. apply append_assoc. Qed.

Lemma emit_nil w : emit EmptyString w = w.
Proof. destruct w. unfold emit. simpl. f_equal. apply append_nil_r. Qed.

Lemma yields_ret {A} g (a : A) : yields g (ret a) a EmptyString.
Proof. intros w _. unfold ret. by rewrite emit_nil. Qed.

Lemma yields_bind {A B} g (c : M T A) (k : A -> M T B) a b s1 s2 :
  yields g c a s1 -> yields g (k a) b s2 -> yields g (bind c k) b (s1 +:+ s2).
Proof.
  intros Hc Hk w Hw. unfold bind. rewrite (Hc w Hw).
  rewrite (Hk (emit s1 w)) by (by rewrite graph_emit).
  by rewrite emit_emit.
Qed.

Lemma yields_bind_pure {A B} g (c : M T A) (k : A -> M T B) a b s :
  yields g c a EmptyString -> yields g (k a) b s -> yields g (bind c k) b s.
Proof. intros Hc Hk. apply (yields_bind g c k a b EmptyString s Hc Hk). Qed.

Lemma yields_bind_ret {A} g (c : M T unit) (a : A) s :
  yields g c tt s -> yields g (bind c (fun _ => ret a)) a s.
Proof.
  intros Hc. rewrite <-(append_nil_r s).
  eapply yields_bind; [exact Hc | apply yields_ret].
Qed.

Lemma yields_print g s : yields g (print s) tt s.
Proof. by intros w _. Qed.

Lemma yields_load g p n : deref g.2 p = Some n -> yields g (load p) n EmptyString.
Proof.
  intros Hp w <-. rewrite emit_nil. unfold load.
  destruct p as [l|]; simpl in *; [|done]. by rewrite Hp.
Qed.

Lemma yields_index g k p :
  g.1.2 !! k = Some p -> yields g (index k) p EmptyString.
Proof. intros Hk w <-. rewrite emit_nil. unfold index. simpl in Hk. by rewrite Hk. Qed.

Lemma yields_find g k : yields g (find k) (g.1.2 !! k) EmptyString.
Proof. intros w <-. by rewrite emit_nil. Qed.

Lemma yields_get_root g : yields g get_root g.1.1 EmptyString.
Proof. intros w <-. by rewrite emit_nil. Qed.

Lemma yields_map_empty g :
  yields g map_empty (bool_decide (g.1.2 = ∅)) EmptyString.
Proof. intros w <-. by rewrite emit_nil. Qed.

Lemma yields_print_children g chs :
  (forall c, c ∈ chs -> is_Some (deref g.2 c)) ->
  yields g (print_children chs) tt (children_text g.2 chs).
Proof.
  induction chs as [|c chs IH]; intros Hch; simpl.
  - apply yields_ret.
  - destruct (Hch c) as [cn Hcn]; [by left|]. rewrite Hcn.
    eapply yields_bind_pure; [by apply yields_load|].
    do 3 (eapply yields_bind; [apply yields_print|]).
    apply IH. intros c' Hc'. apply Hch. by right.
Qed.

Lemma yields_print_options g chs i :
  (forall c, c ∈ chs -> is_Some (deref g.2 c)) ->
  yields g (print_options chs i) tt (options_text g.2 chs i).
Proof.
  revert i. induction chs as [|c chs IH]; intros i Hch; simpl.
  - apply yields_ret.
  - destruct (Hch c) as [cn Hcn]; [by left|]. rewrite Hcn.
    eapply yields_bind_pure; [by apply yields_load|].
    do 4 (eapply yields_bind; [apply yields_print|]).
    apply IH. intros c' Hc'. apply Hch. by right.
Qed.

(** In a well-formed graph every child pointer can be followed. *)
Lemma wf_deref_child w l n c :
  wf w -> heap w !! l = Some n -> c ∈ children n -> is_Some (deref (heap w) c).
Proof.
  intros Hwf Hl Hc. destruct (wf_children w Hwf l n c Hl Hc) as (l' & -> & Hl').
  exact Hl'.
Qed.

Lemma wf_node_at w k p :
  wf w -> nodesMap w !! k = Some p ->
  exists l n, p = Some l /\ heap w !! l = Some n /\ id n = k /\ node_at w k = Some n.
Proof.
  intros Hwf Hk. destruct (wf_registry w Hwf k p Hk) as (l & n & -> & Hl & Hid).
  exists l, n. split_and!; [done..|]. unfold node_at. rewrite Hk. exact Hl.
Qed.

Lemma yields_print_entry w k z :
  wf w -> is_Some (nodesMap w !! k) ->
  yields (graph w) (print_entry (k, z)) tt (entry_text w k).
Proof.
  intros Hwf [p Hk].
  destruct (wf_node_at w k p Hwf Hk) as (l & n & -> & Hl & Hid & Hn).
  unfold print_entry, entry_text. rewrite Hn. simpl.
  eapply yields_bind_pure; [by apply yields_index|].
  eapply yields_bind_pure; [by apply yields_load|].
  do 5 (eapply yields_bind; [apply yields_print|]).
  eapply yields_bind; [|apply yields_print].
  destruct (children n) as [|c chs] eqn:Hch.
  - eapply yields_bind; apply yields_print.
  - apply (yields_print_children (graph w)). intros c' Hc'.
    apply (wf_deref_child w l n c' Hwf Hl). by rewrite Hch.
Qed.

Lemma yields_print_entries w (ps : list (string * Z)) :
  wf w -> (forall k, k ∈ ps.*1 -> is_Some (nodesMap w !! k)) ->
  yields (graph w) (print_entries ps) tt (entries_text w ps.*1).
Proof.
  intros Hwf. induction ps as [|[k z] ps IH]; intros Hks; simpl.
  - apply yields_ret.
  - eapply yields_bind.
    + apply yields_print_entry; [done|]. apply Hks. by left.
    + apply IH. intros k' Hk'. apply Hks. by right.
Qed.

(** [printAll] writes the listing of its ids in sorted order, whatever the
    order in which the map enumerates them, and touches nothing else. *)
Lemma yields_printAll_in w order :
  wf w -> order ≡ₚ map_to_list (nodesMap w) -> nodesMap w <> ∅ ->
  yields (graph w) (printAll_in order) tt
    (listing_text w (print_order (map_to_list (nodesMap w)))).
Proof.
  intros Hwf Hperm Hne. unfold printAll_in, listing_text.
  eapply yields_bind_pure; [apply yields_map_empty|].
  simpl. rewrite bool_decide_eq_false_2 by done.
  do 2 (eapply yields_bind; [apply yields_print|]).
  rewrite <-(print_order_unique _ _ Hperm).
  eapply yields_bind; [|eapply yields_bind; apply yields_print].
  apply yields_print_entries; [done|].
  intros k Hk. fold (print_order order) in Hk.
  rewrite print_order_perm, Hperm in Hk.
  apply list_elem_of_fmap in Hk as ([k' p] & -> & Hkp).
  apply elem_of_map_to_list in Hkp. by exists p.
Qed.

Lemma yields_printAll_in_empty w order :
  nodesMap w = ∅ ->
  yields (graph w) (printAll_in order) tt ("Tree is empty." +:+ endl).
Proof.
  intros He. unfold printAll_in.
  eapply yields_bind_pure; [apply yields_map_empty|].
  simpl. rewrite bool_decide_eq_true_2 by done.
  eapply yields_bind; apply yields_print.
Qed.

End Yields.

(** ** Construction keeps the graph well formed *)

Section Construction.
Context {T : Type} `{Payload T}.
Implicit Types (w : State T) (n : Node T).

Lemma wf_Tree_new : wf (Tree_new (T := T)).
Proof. split; simpl; intros; simplify_map_eq. Qed.

Lemma wf_set_root w l :
  wf w -> is_Some (heap w !! l) ->
  wf (mkState (Some l) (nodesMap w) (heap w) (cout w)).
Proof.
  intros [H1 H2 H3 H4 H5] Hl. split; simpl; try done.
  by intros l' [= <-].
Qed.

(** Rewriting a node in place, keeping its id. *)
Lemma wf_update w l n n' :
  wf w -> heap w !! l = Some n -> id n' = id n ->
  (forall c, c ∈ children n' -> exists l', c = Some l' /\ is_Some (heap w !! l')) ->
  NoDup (children n') ->
  wf (mkState (root w) (nodesMap w) (<[l := n']> (heap w)) (cout w)).
Proof.
  intros [H1 H2 H3 H4 H5] Hl Hid Hch Hnd.
  assert (Hkeep : forall l', is_Some (heap w !! l') -> is_Some (<[l := n']> (heap w) !! l')).
  { intros l' Hl'. destruct (decide (l = l')) as [->|Hne].
    - rewrite lookup_insert_eq. by eexists.
    - by rewrite lookup_insert_ne. }
  split; simpl.
  - intros k p Hk. destruct (H1 k p Hk) as (l0 & n0 & -> & Hl0 & Hid0).
    destruct (decide (l = l0)) as [->|Hne].
    + exists l0, n'. rewrite lookup_insert_eq. split_and!; [done..|]. congruence.
    + exists l0, n0. by rewrite lookup_insert_ne.
  - intros l0 n0 Hl0. destruct (decide (l = l0)) as [->|Hne].
    + rewrite lookup_insert_eq in Hl0. injection Hl0 as <-. rewrite Hid. by apply H2.
    + rewrite lookup_insert_ne in Hl0 by done. by apply H2.
  - intros l0 n0 c Hl0 Hc. destruct (decide (l = l0)) as [->|Hne].
    + rewrite lookup_insert_eq in Hl0. injection Hl0 as <-.
      destruct (Hch c Hc) as (l' & -> & Hl'). exists l'. split; [done|]. by apply Hkeep.
    + rewrite lookup_insert_ne in Hl0 by done.
      destruct (H3 l0 n0 c Hl0 Hc) as (l' & -> & Hl'). exists l'. split; [done|]. by apply Hkeep.
  - intros l0 n0 Hl0. destruct (decide (l = l0)) as [->|Hne].
    + rewrite lookup_insert_eq in Hl0. by injection Hl0 as <-.
    + rewrite lookup_insert_ne in Hl0 by done. by eapply H4.
  - intros l0 Hr. apply Hkeep. by apply H5.
Qed.

Lemma fresh_heap w : heap w !! fresh (dom (heap w)) = None.
Proof. apply not_elem_of_dom. apply is_fresh. Qed.

(** Allocating a node for an id that is not registered yet. *)
Lemma wf_alloc w k v :
  wf w -> nodesMap w !! k = None ->
  wf (mkState (root w) (<[k := Some (fresh (dom (heap w)))]> (nodesMap w))
        (<[fresh (dom (heap w)) := mkNode k v []]> (heap w)) (cout w)).
Proof.
  intros [H1 H2 H3 H4 H5] Hk.
  pose proof (fresh_heap w) as Hf. set (l := fresh (dom (heap w))) in *.
  assert (Hkeep : forall l', is_Some (heap w !! l') ->
            is_Some (<[l := mkNode k v []]> (heap w) !! l')).
  { intros l' Hl'. rewrite lookup_insert_ne; [done|]. intros <-.
    rewrite Hf in Hl'. by destruct Hl'. }
  split; simpl.
  - intros k0 p Hk0. destruct (decide (k = k0)) as [->|Hne].
    + rewrite lookup_insert_eq in Hk0. injection Hk0 as <-.
      exists l, (mkNode k0 v []). by rewrite lookup_insert_eq.
    + rewrite lookup_insert_ne in Hk0 by done.
      destruct (H1 k0 p Hk0) as (l0 & n0 & -> & Hl0 & Hid0).
      exists l0, n0. rewrite lookup_insert_ne; [done|]. intros <-. congruence.
  - intros l0 n0 Hl0. destruct (decide (l = l0)) as [<-|Hne].
    + rewrite lookup_insert_eq in Hl0. injection Hl0 as <-. simpl.
      by rewrite lookup_insert_eq.
    + rewrite lookup_insert_ne in Hl0 by done.
      rewrite lookup_insert_ne; [by apply H2|].
      intros ->. rewrite (H2 l0 n0 Hl0) in Hk. done.
  - intros l0 n0 c Hl0 Hc. destruct (decide (l = l0)) as [<-|Hne].
    + rewrite lookup_insert_eq in Hl0. injection Hl0 as <-. simpl in Hc.
      by apply elem_of_nil in Hc.
    + rewrite lookup_insert_ne in Hl0 by done.
      destruct (H3 l0 n0 c Hl0 Hc) as (l' & -> & Hl'). exists l'. split; [done|]. by apply Hkeep.
  - intros l0 n0 Hl0. destruct (decide (l = l0)) as [<-|Hne].
    + rewrite lookup_insert_eq in Hl0. injection Hl0 as <-. simpl. constructor.
    + rewrite lookup_insert_ne in Hl0 by done. by eapply H4.
  - intros l0 Hr. apply Hkeep. by apply H5.
Qed.

(** [createRoot] never fails on a well-formed graph; its two branches. *)
Lemma createRoot_spec w k v :
  wf w ->
  exists l w', createRoot k v w = Some (tt, w') /\ wf w' /\ cout w' = cout w /\
    root w' = Some l /\
    ((exists n, nodesMap w !! k = Some (Some l) /\ heap w !! l = Some n /\
        nodesMap w' = nodesMap w /\
        heap w' = <[l := mkNode (id n) v (children n)]> (heap w))
     \/ (nodesMap w !! k = None /\ heap w !! l = None /\
        nodesMap w' = <[k := Some l]> (nodesMap w) /\
        heap w' = <[l := mkNode k v []]> (heap w))).
Proof.
  intros Hwf. unfold createRoot, bind, find.
  destruct (nodesMap w !! k) as [p|] eqn:Hk.
  - destruct (wf_registry w Hwf k p Hk) as (l & n & -> & Hl & Hid).
    unfold load, store, ret, set_root. rewrite Hl. simpl. rewrite Hl. simpl.
    eexists l, _. split; [reflexivity|]. simpl.
    assert (Hwf' : wf (mkState (root w) (nodesMap w)
                         (<[l := mkNode (id n) v (children n)]> (heap w)) (cout w))).
    { apply (wf_update w l n); [done..| |simpl; by eapply wf_nodup].
      simpl. intros c Hc. by eapply wf_children. }
    split_and!; [|done|done|].
    + apply (wf_set_root _ l) in Hwf'; [exact Hwf'|]. simpl.
      rewrite lookup_insert_eq. by eexists.
    + left. by exists n.
  - unfold new_Node, assign, ret, set_root. simpl.
    eexists (fresh (dom (heap w))), _. split; [reflexivity|]. simpl.
    pose proof (wf_alloc w k v Hwf Hk) as Hwf'.
    split_and!; [|done|done|].
    + apply (wf_set_root _ (fresh (dom (heap w)))) in Hwf'; [exact Hwf'|]. simpl.
      rewrite lookup_insert_eq. by eexists.
    + right. split_and!; [done|apply fresh_heap|done|done].
Qed.

Lemma addNode_unfold w p c v :
  addNode p c v w =
    let '(parent, w1) := ensure_node p default_value w in
    let '(child, w2) := ensure_node c v w1 in
    link_child parent child w2.
Proof.
  unfold addNode, ensure_node, bind, find.
  destruct (nodesMap w !! p) as [pp|]; simpl.
  - destruct (nodesMap w !! c) as [cp|]; reflexivity.
  - destruct (<[p:=Some (fresh (dom (heap w)))]> (nodesMap w) !! c) as [cp|];
      reflexivity.
Qed.

Lemma ensure_node_spec w k v :
  wf w ->
  exists l w1, ensure_node k v w = (Some l, w1) /\ wf w1 /\
    root w1 = root w /\ cout w1 = cout w /\
    nodesMap w1 !! k = Some (Some l) /\
    ((nodesMap w !! k = Some (Some l) /\ w1 = w)
     \/ (nodesMap w !! k = None /\ heap w !! l = None /\
         nodesMap w1 = <[k := Some l]> (nodesMap w) /\
         heap w1 = <[l := mkNode k v []]> (heap w))).
Proof.
  intros Hwf. unfold ensure_node.
  destruct (nodesMap w !! k) as [p|] eqn:Hk.
  - destruct (wf_registry w Hwf k p Hk) as (l & n & -> & Hl & Hid).
    exists l, w. split_and!; try done. by left.
  - eexists _, _. split; [reflexivity|]. simpl.
    split_and!; [by apply wf_alloc|done|done|by rewrite lookup_insert_eq|].
    right. split_and!; [done|apply fresh_heap|done|done].
Qed.

Lemma has_child_elem (chs : list ptr) (c : ptr) :
  has_child chs c = true <-> c ∈ chs.
Proof.
  unfold has_child. rewrite existsb_exists. split.
  - intros (x & Hx & Heq). apply bool_decide_eq_true in Heq as ->.
    by apply list_elem_of_In.
  - intros Hc. exists c. split; [by apply list_elem_of_In|].
    by apply bool_decide_eq_true.
Qed.

(** The end of [addNode] on two live nodes. *)
Lemma link_child_spec w lp lc pn :
  wf w -> heap w !! lp = Some pn -> is_Some (heap w !! lc) ->
  exists w', link_child (Some lp) (Some lc) w = Some (tt, w') /\ wf w' /\
    root w' = root w /\ cout w' = cout w /\ nodesMap w' = nodesMap w /\
    exists chs, heap w' = <[lp := mkNode (id pn) (data pn) chs]> (heap w) /\
      Some lc ∈ chs /\
      ((Some lc ∈ children pn /\ chs = children pn /\ w' = w)
       \/ ((Some lc ∉ children pn) /\ chs = children pn ++ [Some lc])).
Proof.
  intros Hwf Hp Hc. unfold link_child, bind, load. rewrite Hp.
  destruct (has_child (children pn) (Some lc)) eqn:Hhas.
  - apply has_child_elem in Hhas. exists w. split_and!; try done.
    exists (children pn). split_and!; [|done|by left].
    destruct pn. simpl. by rewrite insert_id.
  - assert (Hnin : Some lc ∉ children pn).
    { intros Hin. apply has_child_elem in Hin. congruence. }
    unfold store. rewrite Hp. eexists. split; [reflexivity|]. simpl.
    split_and!; try done.
    + apply (wf_update w lp pn); [done..| |].
      * simpl. intros c Hin. apply elem_of_app in Hin as [Hin|Hin].
        -- by eapply wf_children.
        -- apply list_elem_of_singleton in Hin as ->. by exists lc.
      * simpl. apply NoDup_app. split_and!.
        -- by eapply wf_nodup.
        -- intros x Hx Hx'. apply list_elem_of_singleton in Hx' as ->. done.
        -- apply NoDup_singleton.
    + exists (children pn ++ [Some lc]). split_and!; [done| |by right].
      apply elem_of_app. right. by apply list_elem_of_singleton.
Qed.

Lemma grows_refl w : grows w w.
Proof. split; [done|]. intros l n Hl. by exists n. Qed.

Lemma grows_trans w1 w2 w3 : grows w1 w2 -> grows w2 w3 -> grows w1 w3.
Proof.
  intros [Ha1 Ha2] [Hb1 Hb2]. split; [by auto|].
  intros l n Hl. destruct (Ha2 l n Hl) as (n' & Hl' & Hi & Hd).
  destruct (Hb2 l n' Hl') as (n'' & Hl'' & Hi' & Hd').
  exists n''. split_and!; [done|congruence|congruence].
Qed.

Lemma grows_insert_fresh w w' k l n0 :
  nodesMap w !! k = None -> heap w !! l = None ->
  nodesMap w' = <[k := Some l]> (nodesMap w) ->
  heap w' = <[l := n0]> (heap w) -> grows w w'.
Proof.
  intros Hk Hl Hm Hh. split.
  - intros k' q Hk'. rewrite Hm, lookup_insert_ne; [done|]. congruence.
  - intros l' n Hl'. exists n. rewrite Hh, lookup_insert_ne; [done|]. congruence.
Qed.

Lemma grows_relink w w' l n chs :
  heap w !! l = Some n -> nodesMap w' = nodesMap w ->
  heap w' = <[l := mkNode (id n) (data n) chs]> (heap w) -> grows w w'.
Proof.
  intros Hl Hm Hh. split; [by rewrite Hm|].
  intros l' n' Hl'. rewrite Hh. destruct (decide (l = l')) as [->|Hne].
  - rewrite lookup_insert_eq. eexists. split; [done|]. simpl.
    rewrite Hl in Hl'. by injection Hl' as ->.
  - rewrite lookup_insert_ne by done. by exists n'.
Qed.

Lemma grows_node_at w w' k n :
  grows w w' -> node_at w k = Some n ->
  exists n', node_at w' k = Some n' /\ id n' = id n /\ data n' = data n.
Proof.
  intros [Hm Hh]. unfold node_at.
  destruct (nodesMap w !! k) as [[l|]|] eqn:Hk; simpl; [|done..].
  intros Hl. rewrite (Hm k _ Hk). simpl. by apply Hh.
Qed.

(** [addNode] never fails on a well-formed graph; what it leaves behind. *)
Lemma addNode_spec w p c v :
  wf w ->
  exists lp lc w', addNode p c v w = Some (tt, w') /\ wf w' /\
    cout w' = cout w /\ root w' = root w /\ grows w w' /\
    nodesMap w' !! p = Some (Some lp) /\ nodesMap w' !! c = Some (Some lc) /\
    (exists pn', heap w' !! lp = Some pn' /\ Some lc ∈ children pn') /\
    (nodesMap w !! c = None -> p <> c ->
       exists n', heap w' !! lc = Some n' /\ data n' = v).
Proof.
  intros Hwf. rewrite addNode_unfold.
  destruct (ensure_node_spec w p default_value Hwf)
    as (lp & w1 & -> & Hwf1 & Hr1 & Hc1 & Hp1 & Hcase1).
  destruct (ensure_node_spec w1 c v Hwf1)
    as (lc & w2 & -> & Hwf2 & Hr2 & Hc2 & Hc2' & Hcase2).
  assert (Hg1 : grows w w1).
  { destruct Hcase1 as [[_ ->]|(? & ? & ? & ?)];
      [apply grows_refl | by eapply grows_insert_fresh]. }
  assert (Hg2 : grows w1 w2).
  { destruct Hcase2 as [[_ ->]|(? & ? & ? & ?)];
      [apply grows_refl | by eapply grows_insert_fresh]. }
  assert (Hp2 : nodesMap w2 !! p = Some (Some lp)) by (by apply Hg2).
  destruct (wf_registry w2 Hwf2 p _ Hp2) as (lp' & pn & [= <-] & Hlp & _).
  destruct (wf_registry w2 Hwf2 c _ Hc2') as (lc' & cn & [= <-] & Hlc & _).
  destruct (link_child_spec w2 lp lc pn Hwf2 Hlp)
    as (w' & -> & Hwf' & Hr' & Hc' & Hm' & chs & Hh' & Hin & _); [by eexists|].
  assert (Hg3 : grows w2 w') by (by apply (grows_relink w2 w' lp pn chs)).
  exists lp, lc, w'. split_and!; try done; try congruence.
  - eapply grows_trans; [|exact Hg3]. by eapply grows_trans.
  - eexists. rewrite Hh', lookup_insert_eq. split; [done|]. done.
  - intros Hnone Hne.
    assert (Hnone1 : nodesMap w1 !! c = None).
    { destruct Hcase1 as [[_ ->]|(_ & _ & -> & _)]; [done|].
      by rewrite lookup_insert_ne. }
    destruct Hcase2 as [[Hsome _]|(_ & Hfresh & _ & Hh2)]; [congruence|].
    destruct Hg3 as [_ Hg3]. destruct (Hg3 lc cn Hlc) as (n' & Hn' & _ & Hd).
    exists n'. split; [done|]. rewrite Hd.
    rewrite Hh2, lookup_insert_eq in Hlc. by injection Hlc as <-.
Qed.

(** Linking an edge that is already there changes nothing. *)
Lemma addNode_again w p c v lp lc pn :
  nodesMap w !! p = Some (Some lp) -> nodesMap w !! c = Some (Some lc) ->
  heap w !! lp = Some pn -> Some lc ∈ children pn ->
  addNode p c v w = Some (tt, w).
Proof.
  intros Hp Hc Hlp Hin. rewrite addNode_unfold. unfold ensure_node.
  rewrite Hp, Hc. unfold link_child, bind, load. rewrite Hlp.
  apply has_child_elem in Hin. by rewrite Hin.
Qed.

Lemma run_calls_wf cs w :
  wf w -> exists w', run_calls cs w = Some (tt, w') /\ wf w'.
Proof.
  revert w. induction cs as [|c cs IH]; intros w Hwf; simpl.
  - by exists w.
  - unfold bind. destruct c as [k v|p c v]; simpl.
    + destruct (createRoot_spec w k v Hwf) as (l & w' & -> & Hwf' & _).
      by apply IH.
    + destruct (addNode_spec w p c v Hwf) as (lp & lc & w' & -> & Hwf' & _).
      by apply IH.
Qed.

Lemma reachable_wf w : reachable w -> wf w.
Proof.
  intros [cs Hcs].
  destruct (run_calls_wf cs Tree_new wf_Tree_new) as (w' & Hw' & Hwf).
  congruence.
Qed.

End Construction.

(** ** The traversal loop *)

Section Play.
Context {T : Type} `{Payload T}.
Implicit Types (w : State T) (g : ptr * gmap string ptr * gmap loc (Node T)).

Lemma select_empty g current line :
  is_empty (trim_copy line) = true ->
  yields g (select current line) current
    ("Please enter a number corresponding to your choice." +:+ endl).
Proof.
  intros He. unfold select. rewrite He.
  eapply yields_bind; [apply yields_print|]. apply yields_bind_ret, yields_print.
Qed.

Lemma select_not_number g current line :
  is_empty (trim_copy line) = false -> all_digits (trim_copy line) = false ->
  yields g (select current line) current
    ("Invalid selection. Please enter a number." +:+ endl).
Proof.
  intros He Hd. unfold select. rewrite He, Hd. simpl.
  eapply yields_bind; [apply yields_print|]. apply yields_bind_ret, yields_print.
Qed.

Lemma select_overflow g current line :
  is_empty (trim_copy line) = false -> all_digits (trim_copy line) = true ->
  INT_MAX < value (trim_copy line) ->
  yields g (select current line) current
    ("Invalid selection. Please enter a valid number." +:+ endl).
Proof.
  intros He Hd Hv. unfold select. rewrite He, Hd. simpl.
  rewrite (stoi_digits _ He Hd).
  destruct (Z.ltb_spec INT_MAX (value (trim_copy line))); [|lia].
  eapply yields_bind; [apply yields_print|]. apply yields_bind_ret, yields_print.
Qed.

Lemma select_out_of_range g current cur line :
  deref g.2 current = Some cur ->
  is_empty (trim_copy line) = false -> all_digits (trim_copy line) = true ->
  value (trim_copy line) <= INT_MAX ->
  value (trim_copy line) < 1 \/ Z.of_nat (length (children cur)) < value (trim_copy line) ->
  yields g (select current line) current
    ("Choice out of range. Please select a valid option." +:+ endl).
Proof.
  intros Hcur He Hd Hv Hout. unfold select. rewrite He, Hd. simpl.
  rewrite (stoi_digits _ He Hd).
  destruct (Z.ltb_spec INT_MAX (value (trim_copy line))); [lia|].
  eapply yields_bind_pure; [by apply yields_load|].
  pose proof (value_nonneg _ Hd) as Hnn.
  rewrite to_size_t_small by lia.
  replace ((value (trim_copy line) <? 1)
           || (Z.of_nat (length (children cur)) <? value (trim_copy line)))
    with true.
  - eapply yields_bind; [apply yields_print|]. apply yields_bind_ret, yields_print.
  - symmetry. apply orb_true_iff. rewrite !Z.ltb_lt. done.
Qed.

Lemma select_move g current cur line next :
  deref g.2 current = Some cur ->
  is_empty (trim_copy line) = false -> all_digits (trim_copy line) = true ->
  1 <= value (trim_copy line) <= Z.of_nat (length (children cur)) ->
  value (trim_copy line) <= INT_MAX ->
  children cur !! Z.to_nat (value (trim_copy line) - 1) = Some next ->
  yields g (select current line) next endl.
Proof.
  intros Hcur He Hd Hin Hv Hnext. unfold select. rewrite He, Hd. simpl.
  rewrite (stoi_digits _ He Hd).
  destruct (Z.ltb_spec INT_MAX (value (trim_copy line))); [lia|].
  eapply yields_bind_pure; [by apply yields_load|].
  rewrite to_size_t_small by lia.
  replace ((value (trim_copy line) <? 1)
           || (Z.of_nat (length (children cur)) <? value (trim_copy line)))
    with false.
  - rewrite Hnext. apply yields_bind_ret, yields_print.
  - symmetry. apply orb_false_iff. rewrite !Z.ltb_ge. lia.
Qed.

(** Whatever the line, [select] answers, and with a node of the graph. *)
Lemma select_total w l cur line :
  wf w -> heap w !! l = Some cur ->
  exists next s, yields (graph w) (select (Some l) line) next s /\
    is_Some (deref (heap w) next).
Proof.
  intros Hwf Hl.
  assert (Hself : is_Some (deref (heap w) (Some l))) by (by exists cur).
  destruct (is_empty (trim_copy line)) eqn:He.
  { eexists _, _. split; [by apply select_empty | done]. }
  destruct (all_digits (trim_copy line)) eqn:Hd.
  2: { eexists _, _. split; [by apply select_not_number | done]. }
  destruct (Z.ltb_spec INT_MAX (value (trim_copy line))) as [Hov|Hfit].
  { eexists _, _. split; [by apply select_overflow | done]. }
  destruct (decide (1 <= value (trim_copy line) <= Z.of_nat (length (children cur))))
    as [Hin|Hout].
  - destruct (lookup_lt_is_Some_2 (children cur) (Z.to_nat (value (trim_copy line) - 1)))
      as [next Hnext]; [lia|].
    exists next, endl. split.
    + by apply (select_move (graph w) (Some l) cur).
    + eapply wf_deref_child; [done..|]. by eapply list_elem_of_lookup_2.
  - eexists _, _. split; [|exact Hself].
    apply (select_out_of_range (graph w) (Some l) cur); [done..|lia].
Qed.

(** A round of the loop at a node with children, for a line that is read. *)
Lemma playLoop_round g current cur line rest next s1 s2 :
  deref g.2 current = Some cur -> children cur <> [] ->
  (forall c, c ∈ children cur -> is_Some (deref g.2 c)) ->
  yields g (select current line) next s1 ->
  yields g (playLoop rest next) tt s2 ->
  yields g (playLoop (line :: rest) current) tt
    (prompt_text g.2 cur +:+ s1 +:+ s2).
Proof.
  intros Hcur Hne Hch Hsel Hrest. simpl.
  eapply yields_bind_pure; [by apply yields_load|].
  unfold prompt_text. rewrite !append_assoc.
  do 2 (eapply yields_bind; [apply yields_print|]).
  destruct (children cur) as [|c chs] eqn:Hcs; [done|].
  do 2 (eapply yields_bind; [apply yields_print|]).
  eapply yields_bind; [by apply yields_print_options|].
  eapply yields_bind; [apply yields_print|].
  eapply yields_bind; [exact Hsel | exact Hrest].
Qed.

(** The loop ends on every finite input, writing some text. *)
Lemma playLoop_total w input current :
  wf w -> is_Some (deref (heap w) current) ->
  exists s, yields (graph w) (playLoop input current) tt s.
Proof.
  intros Hwf. revert current.
  induction input as [|line rest IH]; intros current [cur Hcur].
  - destruct current as [l|]; [|done]. simpl in Hcur.
    destruct (children cur) as [|c chs] eqn:Hcs.
    + eexists. simpl.
      eapply yields_bind_pure; [by apply yields_load|].
      do 2 (eapply yields_bind; [apply yields_print|]). rewrite Hcs.
      do 4 (eapply yields_bind; [apply yields_print|]). apply yields_print.
    + eexists. simpl.
      eapply yields_bind_pure; [by apply yields_load|].
      do 2 (eapply yields_bind; [apply yields_print|]). rewrite Hcs.
      do 2 (eapply yields_bind; [apply yields_print|]).
      eapply yields_bind.
      { apply (yields_print_options (graph w)). intros c' Hc'.
        apply (wf_deref_child w l cur c' Hwf Hcur). by rewrite Hcs. }
      eapply yields_bind; [apply yields_print|].
      eapply yields_bind; [apply yields_print|].
      eapply yields_bind; apply yields_print.
  - destruct current as [l|]; [|done]. simpl in Hcur.
    destruct (children cur) as [|c chs] eqn:Hcs.
    + eexists. simpl.
      eapply yields_bind_pure; [by apply yields_load|].
      do 2 (eapply yields_bind; [apply yields_print|]). rewrite Hcs.
      do 4 (eapply yields_bind; [apply yields_print|]). apply yields_print.
    + destruct (select_total w l cur line Hwf Hcur) as (next & s1 & Hsel & Hnext).
      destruct (IH next Hnext) as [s2 Hrest].
      eexists. eapply (playLoop_round (graph w) (Some l) cur); [done| | |done..].
      * by rewrite Hcs.
      * intros c' Hc'. by apply (wf_deref_child w l cur c' Hwf Hcur).
Qed.

Lemma playGame_no_root w input :
  root w = None ->
  yields (graph w) (playGame input) tt ("No root node. Cannot play game." +:+ endl).
Proof.
  intros Hr. unfold playGame.
  eapply yields_bind_pure; [apply yields_get_root|]. simpl. rewrite Hr.
  eapply yields_bind; apply yields_print.
Qed.

Lemma playGame_rooted w input :
  wf w -> root w <> None ->
  exists body,
    yields (graph w) (playGame input) tt
      ("===== Begin Adventure =====" +:+ endl +:+ endl +:+ body +:+
       "===== Adventure Complete =====" +:+ endl).
Proof.
  intros Hwf Hr. destruct (root w) as [l|] eqn:Hroot; [|done].
  destruct (playLoop_total w input (Some l) Hwf) as [body Hbody].
  { by apply (wf_root w Hwf). }
  exists body. unfold playGame.
  eapply yields_bind_pure; [apply yields_get_root|]. simpl. rewrite Hroot.
  do 3 (eapply yields_bind; [apply yields_print|]).
  eapply yields_bind; [exact Hbody|].
  eapply yields_bind; apply yields_print.
Qed.

End Play.

(** ** The destructor *)

Section Destroy.
Context {T : Type} `{Payload T}.
Implicit Types (w : State T).

(** Deleting distinct live pointers one after the other never faults, and
    frees exactly the cells they point to. *)
Lemma delete_all_spec (order : list (string * ptr)) w :
  NoDup order.*2 ->
  (forall q, q ∈ order.*2 -> exists l, q = Some l /\ is_Some (heap w !! l)) ->
  exists w', delete_all order w = Some (tt, w') /\
    root w' = root w /\ nodesMap w' = nodesMap w /\ cout w' = cout w /\
    forall l, heap w' !! l = if decide (Some l ∈ order.*2) then None else heap w !! l.
Proof.
  revert w. induction order as [|[k q] order IH]; intros w Hnd Hlive; simpl.
  - exists w. split_and!; [done..|]. by intros l.
  - apply NoDup_cons in Hnd as [Hnin Hnd].
    destruct (Hlive q) as (l & -> & [n Hl]); [by left|].
    unfold bind, delete_Node. simpl. rewrite Hl.
    destruct (IH (mkState (root w) (nodesMap w) (delete l (heap w)) (cout w)) Hnd)
      as (w' & -> & Hr & Hm & Hc & Hh).
    { simpl. intros q Hq. destruct (Hlive q) as (l' & -> & Hl'); [by right|].
      exists l'. split; [done|]. rewrite lookup_delete_ne; [done|]. by intros ->. }
    exists w'. split_and!; try done. intros l'. rewrite Hh. simpl.
    destruct (decide (Some l' ∈ order.*2)) as [Hin|Hnin'].
    + rewrite decide_True; [done|]. by right.
    + destruct (decide (l = l')) as [->|Hne].
      * rewrite lookup_delete_eq. rewrite decide_True; [done|]. by left.
      * rewrite lookup_delete_ne by done. rewrite decide_False; [done|].
        intros Hin. apply elem_of_cons in Hin as [[= ->]|Hin]; done.
Qed.

(** The registry of a well-formed graph holds each node once. *)
Lemma wf_registry_NoDup w (order : list (string * ptr)) :
  wf w -> order ≡ₚ map_to_list (nodesMap w) -> NoDup order.*2.
Proof.
  intros Hwf Hperm. rewrite Hperm.
  apply NoDup_fmap_2_strong; [|apply NoDup_map_to_list].
  intros [k1 q1] [k2 q2] H1 H2 Heq. simpl in Heq. subst q2.
  apply elem_of_map_to_list in H1, H2.
  destruct (wf_registry w Hwf k1 q1 H1) as (l1 & n1 & -> & Hl1 & <-).
  destruct (wf_registry w Hwf k2 _ H2) as (l2 & n2 & [= <-] & Hl2 & <-).
  congruence.
Qed.

Lemma wf_registry_live w (order : list (string * ptr)) :
  wf w -> order ≡ₚ map_to_list (nodesMap w) ->
  forall l, is_Some (heap w !! l) <-> Some l ∈ order.*2.
Proof.
  intros Hwf Hperm l. rewrite Hperm. split.
  - intros [n Hl]. apply list_elem_of_fmap. exists (id n, Some l). split; [done|].
    apply elem_of_map_to_list. by apply (wf_owned w Hwf).
  - intros Hin. apply list_elem_of_fmap in Hin as ([k q] & Hq & Hin). simpl in Hq. subst q.
    apply elem_of_map_to_list in Hin.
    destruct (wf_registry w Hwf k _ Hin) as (l' & n & [= <-] & Hl & _). by exists n.
Qed.

Lemma Tree_destroy_spec w (order : list (string * ptr)) :
  wf w -> order ≡ₚ map_to_list (nodesMap w) ->
  exists w', Tree_destroy_in order w = Some (tt, w') /\
    heap w' = ∅ /\ nodesMap w' = ∅ /\ root w' = None /\ cout w' = cout w.
Proof.
  intros Hwf Hperm.
  pose proof (wf_registry_NoDup w order Hwf Hperm) as Hnd.
  pose proof (wf_registry_live w order Hwf Hperm) as Hlive.
  destruct (delete_all_spec order w Hnd) as (w1 & Hw1 & Hr & Hm & Hc & Hh).
  { intros q Hq. pose proof Hq as Hq'. rewrite Hperm in Hq'.
    apply list_elem_of_fmap in Hq' as ([k q'] & Heq & Hin). simpl in Heq. subst q'.
    apply elem_of_map_to_list in Hin.
    destruct (wf_registry w Hwf k _ Hin) as (l & n & -> & Hl & _).
    exists l. split; [done|]. by exists n. }
  unfold Tree_destroy_in, bind. rewrite Hw1. simpl.
  eexists. split; [reflexivity|]. simpl. split_and!; try done.
  apply map_eq. intros l. rewrite Hh, lookup_empty.
  destruct (decide (Some l ∈ order.*2)) as [|Hnin]; [done|].
  destruct (heap w !! l) eqn:Hl; [|done].
  exfalso. apply Hnin, Hlive. by eexists.
Qed.

End Destroy.

(** ** Auxiliary facts for the statements below *)

Section Aux.
Context {T : Type} `{Payload T}.
Implicit Types (w : State T) (g : ptr * gmap string ptr * gmap loc (Node T)).

Lemma bind_yields {A B} g (c : M T A) (k : A -> M T B) a s w :
  yields g c a s -> graph w = g -> bind c k w = k a (emit s w).
Proof. intros Hc Hw. unfold bind. by rewrite (Hc w Hw). Qed.

(** After a line has been read at a node with children, the loop goes on
    from the node [select] answers, with the rest of the input. *)
Lemma playLoop_continue w current cur line rest next s :
  deref (heap w) current = Some cur -> children cur <> [] ->
  (forall c, c ∈ children cur -> is_Some (deref (heap w) c)) ->
  yields (graph w) (select current line) next s ->
  playLoop (line :: rest) current w =
    playLoop rest next (emit (prompt_text (heap w) cur +:+ s) w).
Proof.
  intros Hcur Hne Hch Hsel.
  assert (Hpre : yields (graph w)
            (let* cur' := load current in
             print (trim_copy (to_text (data cur'))) >> print endl >>
             print "Choose your next action:" >> print endl >>
             print_options (children cur') 0 >> print "Selection: " >>
             select current line) next (prompt_text (heap w) cur +:+ s)).
  { eapply yields_bind_pure; [by apply yields_load|].
    unfold prompt_text. rewrite !append_assoc.
    do 4 (eapply yields_bind; [apply yields_print|]).
    eapply yields_bind; [by apply yields_print_options|].
    eapply yields_bind; [apply yields_print | exact Hsel]. }
  specialize (Hpre w eq_refl). revert Hpre. simpl. unfold bind, load, print.
  destruct current as [l|]; [|done]. simpl in Hcur. rewrite Hcur. simpl.
  destruct (children cur) as [|c chs]; [done|].
  destruct (print_options (c :: chs) 0 _) as [[[] w1]|]; [|done]. simpl.
  destruct (select (Some l) line _) as [[next' w2]|]; [|done].
  by intros [= -> ->].
Qed.

Lemma filter_none {A} (P : A -> Prop) `{forall x, Decision (P x)} (l : list A) :
  (forall y, y ∈ l -> ~ P y) -> filter P l = [].
Proof.
  induction l as [|y l IH]; intros Hl; [done|].
  rewrite filter_cons_False; [|apply Hl; by left].
  apply IH. intros z Hz. apply Hl. by right.
Qed.

Lemma NoDup_occurs_once {A} `{EqDecision A} (x : A) (l : list A) :
  NoDup l -> (length (filter (fun y => y = x) l) <= 1)%nat.
Proof.
  induction 1 as [|y l Hnin Hnd IH]; [simpl; lia|].
  destruct (decide (y = x)) as [->|Hne].
  - rewrite filter_cons_True by done.
    rewrite filter_none; [simpl; lia|]. by intros z Hz ->.
  - by rewrite filter_cons_False.
Qed.

End Aux.

(** * The claims *)

Lemma built_story_nonempty : nodesMap (built story) <> ∅.
Proof.
  intros E. apply (f_equal (fun m => m !! "1")) in E.
  vm_compute in E. discriminate.
Qed.

(** C1 (as amended).  On every graph built by construction calls, and
    whatever the order in which the registry enumerates its entries,
    [printAll] writes the listing of the registry entries, each once, sorted
    by the pair (key, id): ids made of decimal digits only whose value is
    below the largest [long long] come first, ascending by value, equal
    values in lexicographic order of the ids; every other id (non-numeric
    ids, and numeric ids whose value is that maximum or overflows, both keyed
    as the maximum) comes after those, sorted lexicographically. *)
Theorem C1_printAll_order {T : Type} `{Payload T} (w : State T)
    (order : list (string * ptr)) :
  reachable w -> order ≡ₚ map_to_list (nodesMap w) -> nodesMap w <> ∅ ->
  exists ids,
    printAll_in order w = Some (tt, emit (listing_text w ids) w) /\
    ids = print_order order /\
    ids = print_order (map_to_list (nodesMap w)) /\
    ids ≡ₚ (map_to_list (nodesMap w)).*1 /\
    StronglySorted listed_before ids.
Proof.
  intros Hreach Hperm Hne. pose proof (reachable_wf w Hreach) as Hwf.
  exists (print_order (map_to_list (nodesMap w))). split_and!.
  - exact (yields_printAll_in w order Hwf Hperm Hne w eq_refl).
  - symmetry. by apply print_order_unique.
  - reflexivity.
  - apply print_order_perm.
  - apply print_order_sorted. apply NoDup_fst_map_to_list.
Qed.

Lemma C1_witness :
  reachable (built story) /\
  map_to_list (nodesMap (built story)) ≡ₚ map_to_list (nodesMap (built story)) /\
  nodesMap (built story) <> ∅ /\
  exists ids,
    printAll (built story) = Some (tt, emit (listing_text (built story) ids) (built story)) /\
    ids = ["1"; "2"; "10"; "apple"] /\
    StronglySorted listed_before ids.
Proof.
  assert (Hr : reachable (built story)) by (exists story; vm_compute; reflexivity).
  split; [exact Hr|]. split; [reflexivity|]. split; [exact built_story_nonempty|].
  destruct (C1_printAll_order (built story) (map_to_list (nodesMap (built story)))
              Hr (reflexivity _) built_story_nonempty)
    as (ids & Hprint & Hids & _ & _ & Hsorted).
  exists ids. split; [exact Hprint|]. split; [|exact Hsorted].
  rewrite Hids. vm_compute. reflexivity.
Defined.

(** C1, as stated, fails: a non-numeric id can be listed before a numeric
    one.  With the ids "-1" (not numeric) and "99999999999999999999" (digits
    only, too large for [long long]) both keys are the maximum, the ids are
    compared as strings, and "-1" is listed first. *)
Lemma C1_counterexample :
  numeric "99999999999999999999" /\ ~ numeric "-1" /\
  is_Some (nodesMap (built signed_ids) !! "-1") /\
  is_Some (nodesMap (built signed_ids) !! "99999999999999999999") /\
  print_order (map_to_list (nodesMap (built signed_ids)))
    = ["-1"; "99999999999999999999"] /\
  exists w', printAll (built signed_ids) = Some (tt, w') /\
    cout w' = "===== Story Tree =====
Node -1: a
  Child -> 99999999999999999999

Node 99999999999999999999: b
  Child -> (none)

======================
".
Proof.
  split; [by vm_compute|]. split; [intros [_ Hd]; vm_compute in Hd; discriminate|].
  split; [vm_compute; by eexists|]. split; [vm_compute; by eexists|].
  split; [by vm_compute|].
  eexists. split; [vm_compute; reflexivity|]. by vm_compute.
Qed.

(** C2 (as amended).  For every call [addNode(parentID, childID, value)] on
    a graph built by construction calls: if no node with id [childID] exists
    before the call and [childID] differs from [parentID], a node with id
    [childID] holding [value] is created and registered; if a node with id
    [childID] already exists, its payload is left as it was; and after
    [addNode(p, c, v1)] with [c] new and different from [p], a second
    [addNode(p, c, v2)] leaves the payload of [c] equal to [v1]. *)
Theorem C2_addNode_first_write_wins {T : Type} `{Payload T} (w : State T)
    (parentID childID : string) (value : T) :
  reachable w ->
  exists w', addNode parentID childID value w = Some (tt, w') /\
    (nodesMap w !! childID = None -> parentID <> childID ->
       exists n, node_at w' childID = Some n /\ id n = childID /\ data n = value) /\
    (forall n, node_at w childID = Some n -> payload w' childID = Some (data n)) /\
    (nodesMap w !! childID = None -> parentID <> childID ->
       forall v2, exists w'', addNode parentID childID v2 w' = Some (tt, w'') /\
         payload w'' childID = Some value).
Proof.
  intros Hreach. pose proof (reachable_wf w Hreach) as Hwf.
  destruct (addNode_spec w parentID childID value Hwf)
    as (lp & lc & w' & Hrun & Hwf' & _ & _ & Hg & Hp & Hc & (pn' & Hpn' & Hin) & Hnew).
  exists w'. split; [exact Hrun|].
  assert (Hcreated : nodesMap w !! childID = None -> parentID <> childID ->
            exists n, node_at w' childID = Some n /\ id n = childID /\ data n = value).
  { intros Hnone Hne. destruct (Hnew Hnone Hne) as (n' & Hn' & Hd).
    destruct (wf_node_at w' childID _ Hwf' Hc) as (l & n & [= <-] & Hl & Hid & Hn).
    exists n. split_and!; [done..|]. congruence. }
  split_and!.
  - exact Hcreated.
  - intros n Hn. destruct (grows_node_at w w' childID n Hg Hn) as (n' & Hn' & _ & Hd).
    unfold payload. rewrite Hn'. simpl. by rewrite Hd.
  - intros Hnone Hne v2. exists w'. split.
    + by apply (addNode_again w' parentID childID v2 lp lc pn').
    + destruct (Hcreated Hnone Hne) as (n & Hn & _ & Hd).
      unfold payload. rewrite Hn. simpl. by rewrite Hd.
Qed.

Lemma C2_witness :
  reachable (built story) /\
  exists w', addNode "apple" "7" "pear" (built story) = Some (tt, w') /\
    payload w' "7" = Some "pear" /\
    exists w'', addNode "apple" "7" "plum" w' = Some (tt, w'') /\
      payload w'' "7" = Some "pear".
Proof.
  assert (Hr : reachable (built story)) by (exists story; vm_compute; reflexivity).
  split; [exact Hr|].
  destruct (C2_addNode_first_write_wins (built story) "apple" "7" "pear" Hr)
    as (w' & Hrun & Hnew & _ & Htwice).
  assert (Hnone : nodesMap (built story) !! "7" = None) by (vm_compute; reflexivity).
  assert (Hne : "apple" <> "7") by discriminate.
  exists w'. split; [exact Hrun|]. split.
  - destruct (Hnew Hnone Hne) as (n & Hn & _ & Hd).
    unfold payload. rewrite Hn. simpl. by rewrite Hd.
  - exact (Htwice Hnone Hne "plum").
Defined.

(** C2, as stated, fails when a node is linked to itself before it exists:
    [addNode("a", "a", "x")] on the empty tree first creates "a" as the
    parent, with the default payload, and then finds it as the child; the
    payload of "a" is the empty string, and stays so after a second call. *)
Lemma C2_counterexample :
  nodesMap (Tree_new (T := string)) !! "a" = None /\
  exists w', addNode "a" "a" "x" Tree_new = Some (tt, w') /\
    payload w' "a" = Some EmptyString /\ payload w' "a" <> Some "x" /\
    exists w'', addNode "a" "a" "y" w' = Some (tt, w'') /\
      payload w'' "a" = Some EmptyString /\ payload w'' "a" <> Some "x".
Proof.
  split; [reflexivity|].
  eexists. split; [vm_compute; reflexivity|].
  split; [vm_compute; reflexivity|]. split; [vm_compute; discriminate|].
  eexists. split; [vm_compute; reflexivity|].
  split; [vm_compute; reflexivity | vm_compute; discriminate].
Qed.

(** C3 (as amended).  At a node with at least one child, on a line that
    after trimming is non-empty, consists of digits only, fits in an [int]
    and whose value [k] has [k < 1] or [k] greater than the number of
    children, [select] writes the "out of range" notice and answers the same
    node, so the loop goes on from that node with the rest of the input. *)
Theorem C3_out_of_range_stays {T : Type} `{Payload T} (w : State T)
    (current : ptr) (cur : Node T) (line : string) (rest : list string) :
  reachable w ->
  deref (heap w) current = Some cur -> children cur <> [] ->
  is_empty (trim_copy line) = false -> all_digits (trim_copy line) = true ->
  value (trim_copy line) <= INT_MAX ->
  value (trim_copy line) < 1
    \/ Z.of_nat (length (children cur)) < value (trim_copy line) ->
  select current line w =
    Some (current, emit ("Choice out of range. Please select a valid option." +:+ endl) w) /\
  playLoop (line :: rest) current w =
    playLoop rest current
      (emit (prompt_text (heap w) cur +:+
             "Choice out of range. Please select a valid option." +:+ endl) w).
Proof.
  intros Hreach Hcur Hne He Hd Hfit Hout.
  pose proof (reachable_wf w Hreach) as Hwf.
  pose proof (select_out_of_range (graph w) current cur line Hcur He Hd Hfit Hout) as Hsel.
  split; [exact (Hsel w eq_refl)|].
  apply (playLoop_continue w current cur); [done..| |done].
  destruct current as [l|]; [|done]. intros c Hc.
  by apply (wf_deref_child w l cur c Hwf Hcur).
Qed.

Lemma C3_witness :
  reachable (built story) /\
  select (Some 1%positive) " 5 " (built story) =
    Some (Some 1%positive,
          emit ("Choice out of range. Please select a valid option." +:+ endl) (built story)).
Proof.
  assert (Hr : reachable (built story)) by (exists story; vm_compute; reflexivity).
  split; [exact Hr|].
  refine (proj1 (C3_out_of_range_stays (built story) (Some 1%positive)
            (mkNode "1" " start " [Some 2%positive; Some 3%positive]) " 5 " []
            Hr _ _ _ _ _ _)).
  - vm_compute. reflexivity.
  - discriminate.
  - vm_compute. reflexivity.
  - vm_compute. reflexivity.
  - vm_compute. discriminate.
  - right. vm_compute. reflexivity.
Defined.

(** C3, as stated, fails on a run of digits too large for [int]: at the
    root of the sample story (two children) the line "2147483648" has a value
    greater than the number of children, yet the notice written is the one
    of the failed conversion, not "out of range". *)
Lemma C3_counterexample :
  deref (heap (built story)) (Some 1%positive)
    = Some (mkNode "1" " start " [Some 2%positive; Some 3%positive]) /\
  is_empty (trim_copy "2147483648") = false /\
  all_digits (trim_copy "2147483648") = true /\
  2 < value (trim_copy "2147483648") /\
  select (Some 1%positive) "2147483648" (built story) =
    Some (Some 1%positive,
          emit ("Invalid selection. Please enter a valid number." +:+ endl) (built story)) /\
  select (Some 1%positive) "2147483648" (built story) <>
    Some (Some 1%positive,
          emit ("Choice out of range. Please select a valid option." +:+ endl) (built story)).
Proof.
  split_and!; try (vm_compute; reflexivity).
  vm_compute. discriminate.
Qed.

(** C4 (as amended).  On a graph built by construction calls and for every
    input, a session started with a root set ends, and what it writes begins
    with the opening banner and ends with the completion notice; a session
    started with no root set writes the "no root" notice and nothing else. *)
Theorem C4_completion_notice {T : Type} `{Payload T} (w : State T)
    (input : list string) :
  reachable w ->
  (root w <> None ->
     exists body, playGame input w =
       Some (tt, emit ("===== Begin Adventure =====" +:+ endl +:+ endl +:+ body +:+
                       "===== Adventure Complete =====" +:+ endl) w)) /\
  (root w = None ->
     playGame input w = Some (tt, emit ("No root node. Cannot play game." +:+ endl) w)).
Proof.
  intros Hreach. pose proof (reachable_wf w Hreach) as Hwf. split.
  - intros Hr. destruct (playGame_rooted w input Hwf Hr) as [body Hbody].
    exists body. exact (Hbody w eq_refl).
  - intros Hr. exact (playGame_no_root w input Hr w eq_refl).
Qed.

Lemma C4_witness :
  reachable (built story) /\ root (built story) <> None /\
  exists body, playGame ["abc"; "5"; " 1 "] (built story) =
    Some (tt, emit ("===== Begin Adventure =====" +:+ endl +:+ endl +:+ body +:+
                    "===== Adventure Complete =====" +:+ endl) (built story)).
Proof.
  assert (Hr : reachable (built story)) by (exists story; vm_compute; reflexivity).
  assert (Hroot : root (built story) <> None) by (vm_compute; discriminate).
  split; [exact Hr|]. split; [exact Hroot|].
  exact (proj1 (C4_completion_notice (built story) ["abc"; "5"; " 1 "] Hr) Hroot).
Defined.

(** C4, as stated, fails for a session started with no root set: it writes
    the "no root" notice and returns, without the completion notice. *)
Lemma C4_counterexample :
  root (Tree_new (T := string)) = None /\
  exists w', playGame [] (Tree_new (T := string)) = Some (tt, w') /\
    cout w' = "No root node. Cannot play game." +:+ endl /\
    contains "===== Adventure Complete =====" (cout w') = false.
Proof.
  split; [reflexivity|]. eexists. split; [vm_compute; reflexivity|].
  split; vm_compute; reflexivity.
Qed.

(** C5.  After any sequence of [createRoot] / [addNode] calls no children
    list holds the same pointer twice; in particular, after two calls
    [addNode(p, c, _)] in a row the children of [p] hold at most one pointer
    to the node with id [c]. *)
Theorem C5_no_duplicate_children {T : Type} `{Payload T} (cs : list (@call T)) :
  exists w, run_calls cs Tree_new = Some (tt, w) /\
    (forall l n, heap w !! l = Some n -> NoDup (children n)) /\
    (forall p c v1 v2, exists w2 lp lc np,
       (addNode p c v1 >> addNode p c v2) w = Some (tt, w2) /\
       nodesMap w2 !! p = Some (Some lp) /\ nodesMap w2 !! c = Some (Some lc) /\
       heap w2 !! lp = Some np /\
       (length (filter (fun q => q = Some lc) (children np)) <= 1)%nat).
Proof.
  destruct (run_calls_wf cs Tree_new wf_Tree_new) as (w & Hrun & Hwf).
  exists w. split; [exact Hrun|]. split; [by apply wf_nodup|].
  intros p c v1 v2.
  destruct (addNode_spec w p c v1 Hwf)
    as (lp & lc & w1 & Hrun1 & Hwf1 & _ & _ & _ & Hp & Hc & (np & Hnp & Hin) & _).
  exists w1, lp, lc, np. split_and!; try done.
  - unfold bind. rewrite Hrun1.
    by apply (addNode_again w1 p c v2 lp lc np).
  - apply NoDup_occurs_once. by apply (wf_nodup w1 Hwf1 lp).
Qed.

(** C6.  For every call [createRoot(id, value)] on a graph built by
    construction calls: if the id is registered, the payload of its node is
    overwritten with [value] (id and children as before) and that node
    becomes the root; otherwise a new node with that id and payload is
    allocated, registered and made the root; in both cases every entry of
    the registry, the one of the former root among them, is still there. *)
Theorem C6_createRoot {T : Type} `{Payload T} (w : State T) (id_ : string) (value : T) :
  reachable w ->
  exists l w', createRoot id_ value w = Some (tt, w') /\
    root w' = Some l /\ nodesMap w' !! id_ = Some (Some l) /\
    (forall n, node_at w id_ = Some n ->
       nodesMap w !! id_ = Some (Some l) /\ nodesMap w' = nodesMap w /\
       heap w' = <[l := mkNode (id n) value (children n)]> (heap w)) /\
    (nodesMap w !! id_ = None ->
       heap w !! l = None /\ nodesMap w' = <[id_ := Some l]> (nodesMap w) /\
       heap w' = <[l := mkNode id_ value []]> (heap w)) /\
    (forall k q, nodesMap w !! k = Some q -> nodesMap w' !! k = Some q) /\
    (forall r rn, root w = Some r -> heap w !! r = Some rn ->
       nodesMap w' !! id rn = Some (Some r) /\ is_Some (heap w' !! r)).
Proof.
  intros Hreach. pose proof (reachable_wf w Hreach) as Hwf.
  destruct (createRoot_spec w id_ value Hwf)
    as (l & w' & Hrun & Hwf' & _ & Hroot & Hcase).
  assert (Hkeep : forall k q, nodesMap w !! k = Some q -> nodesMap w' !! k = Some q).
  { intros k q Hk. destruct Hcase as [(n & _ & _ & -> & _)|(Hnone & _ & -> & _)]; [done|].
    rewrite lookup_insert_ne; [done|]. congruence. }
  exists l, w'. split_and!; try done.
  - destruct Hcase as [(n & Hk & _ & -> & _)|(_ & _ & -> & _)]; [done|].
    by rewrite lookup_insert_eq.
  - intros n Hn. destruct Hcase as [(n0 & Hk & Hl & Hm & Hh)|(Hnone & _)].
    + unfold node_at in Hn. rewrite Hk in Hn. simpl in Hn.
      assert (n0 = n) as -> by congruence. done.
    + unfold node_at in Hn. by rewrite Hnone in Hn.
  - intros Hnone. destruct Hcase as [(n0 & Hk & _)|(_ & Hl & Hm & Hh)]; [congruence|done].
  - intros r rn Hr Hrn. split.
    + apply Hkeep. by apply (wf_owned w Hwf).
    + destruct Hcase as [(n & _ & _ & _ & ->)|(_ & Hl & _ & ->)].
      * destruct (decide (l = r)) as [->|Hne].
        -- rewrite lookup_insert_eq. by eexists.
        -- rewrite lookup_insert_ne by done. by eexists.
      * rewrite lookup_insert_ne; [by eexists|]. congruence.
Qed.

Lemma C6_witness :
  reachable (built story) /\
  exists l w', createRoot "2" "new start" (built story) = Some (tt, w') /\
    root w' = Some l /\ nodesMap w' !! "2" = Some (Some l) /\
    nodesMap w' !! "1" = Some (Some 1%positive).
Proof.
  assert (Hr : reachable (built story)) by (exists story; vm_compute; reflexivity).
  split; [exact Hr|].
  destruct (C6_createRoot (built story) "2" "new start" Hr)
    as (l & w' & Hrun & Hroot & Hreg & _ & _ & Hkeep & _).
  exists l, w'. split_and!; [exact Hrun | exact Hroot | exact Hreg |].
  apply Hkeep. vm_compute. reflexivity.
Defined.

(** C7.  After any sequence of construction calls there is at most one node
    per id, every registry entry points to the live node carrying its id, and
    two [findNode] calls in a row return the same pointer; on any state
    whatsoever [findNode] leaves the state as it found it. *)
Theorem C7_single_owner {T : Type} `{Payload T} (cs : list (@call T)) :
  (exists w, run_calls cs Tree_new = Some (tt, w) /\
     (forall l1 l2 n1 n2, heap w !! l1 = Some n1 -> heap w !! l2 = Some n2 ->
        id n1 = id n2 -> l1 = l2) /\
     (forall k p, nodesMap w !! k = Some p ->
        exists l n, p = Some l /\ heap w !! l = Some n /\ id n = k) /\
     (forall k, exists p,
        (let* a := findNode k in let* b := findNode k in ret (a, b)) w
          = Some ((p, p), w))) /\
  (forall (w0 : State T) k, exists p, findNode k w0 = Some (p, w0)).
Proof.
  assert (Hfind : forall (w0 : State T) k, exists p, findNode k w0 = Some (p, w0)).
  { intros w0 k. unfold findNode, bind, find.
    destruct (nodesMap w0 !! k) as [p|]; eexists; reflexivity. }
  split; [|exact Hfind].
  destruct (run_calls_wf cs Tree_new wf_Tree_new) as (w & Hrun & Hwf).
  exists w. split; [exact Hrun|]. split_and!.
  - intros l1 l2 n1 n2 H1 H2 Hid.
    pose proof (wf_owned w Hwf l1 n1 H1) as Ho1.
    pose proof (wf_owned w Hwf l2 n2 H2) as Ho2.
    rewrite Hid in Ho1. congruence.
  - by apply wf_registry.
  - intros k. destruct (Hfind w k) as [p Hp]. exists p.
    unfold bind. rewrite Hp, Hp. reflexivity.
Qed.

(** C8.  On a graph built by construction calls, [printAll] (whatever the
    order in which the registry enumerates its entries) and [playGame] (for
    every input, read to its end if need be) return, and root, registry and
    every node, with its payload and children, are as before. *)
Theorem C8_read_only {T : Type} `{Payload T} (w : State T) :
  reachable w ->
  (forall order, order ≡ₚ map_to_list (nodesMap w) ->
     exists w', printAll_in order w = Some (tt, w') /\ graph w' = graph w) /\
  (forall input,
     exists w', playGame input w = Some (tt, w') /\ graph w' = graph w).
Proof.
  intros Hreach. pose proof (reachable_wf w Hreach) as Hwf. split.
  - intros order Hperm. destruct (decide (nodesMap w = ∅)) as [He|Hne].
    + eexists. split; [exact (yields_printAll_in_empty w order He w eq_refl)|].
      apply graph_emit.
    + eexists. split; [exact (yields_printAll_in w order Hwf Hperm Hne w eq_refl)|].
      apply graph_emit.
  - intros input. destruct (root w) as [l|] eqn:Hroot.
    + destruct (playGame_rooted w input Hwf) as [body Hbody]; [congruence|].
      eexists. split; [exact (Hbody w eq_refl)|]. apply graph_emit.
    + eexists. split; [exact (playGame_no_root w input Hroot w eq_refl)|].
      apply graph_emit.
Qed.

Lemma C8_witness :
  reachable (built story) /\
  (exists w', printAll (built story) = Some (tt, w') /\ graph w' = graph (built story)) /\
  (exists w', playGame ["abc"; "5"; " 1 "] (built story) = Some (tt, w') /\
     graph w' = graph (built story)).
Proof.
  assert (Hr : reachable (built story)) by (exists story; vm_compute; reflexivity).
  split; [exact Hr|].
  destruct (C8_read_only (built story) Hr) as [Hprint Hplay]. split.
  - exact (Hprint (map_to_list (nodesMap (built story))) (reflexivity _)).
  - exact (Hplay ["abc"; "5"; " 1 "]).
Defined.

(** C9.  Destroying a tree built by construction calls never deletes a
    pointer that is not live: the pointers handed to [delete] are pairwise
    distinct and are exactly the addresses of the live nodes, so each node is
    released once, however many children lists refer to it and whether or
    not it is the root; afterwards no node is left, the registry is empty and
    the root is null. *)
Theorem C9_destructor {T : Type} `{Payload T} (w : State T)
    (order : list (string * ptr)) :
  reachable w -> order ≡ₚ map_to_list (nodesMap w) ->
  NoDup order.*2 /\
  (forall l, is_Some (heap w !! l) <-> Some l ∈ order.*2) /\
  exists w', Tree_destroy_in order w = Some (tt, w') /\
    heap w' = ∅ /\ nodesMap w' = ∅ /\ root w' = None.
Proof.
  intros Hreach Hperm. pose proof (reachable_wf w Hreach) as Hwf.
  split; [by apply (wf_registry_NoDup w)|].
  split; [by apply wf_registry_live|].
  destruct (Tree_destroy_spec w order Hwf Hperm) as (w' & Hrun & Hh & Hm & Hr & _).
  by exists w'.
Qed.

Lemma C9_witness :
  reachable (built story) /\
  exists w', Tree_destroy (built story) = Some (tt, w') /\
    heap w' = ∅ /\ nodesMap w' = ∅ /\ root w' = None.
Proof.
  assert (Hr : reachable (built story)) by (exists story; vm_compute; reflexivity).
  split; [exact Hr|].
  exact (proj2 (proj2 (C9_destructor (built story)
                         (map_to_list (nodesMap (built story))) Hr (reflexivity _)))).
Defined.

(** C10.  At a node with children, on a line that after trimming is
    non-empty, consists of digits only and whose value does not fit in an
    [int], the conversion throws, [select] writes "Invalid selection. Please
    enter a valid number." and answers the same node, and the loop goes on
    from that node with the rest of the input. *)
Theorem C10_conversion_overflow {T : Type} `{Payload T} (w : State T)
    (current : ptr) (cur : Node T) (line : string) (rest : list string) :
  reachable w ->
  deref (heap w) current = Some cur -> children cur <> [] ->
  is_empty (trim_copy line) = false -> all_digits (trim_copy line) = true ->
  INT_MAX < value (trim_copy line) ->
  stoi (trim_copy line) = inl out_of_range /\
  select current line w =
    Some (current, emit ("Invalid selection. Please enter a valid number." +:+ endl) w) /\
  playLoop (line :: rest) current w =
    playLoop rest current
      (emit (prompt_text (heap w) cur +:+
             "Invalid selection. Please enter a valid number." +:+ endl) w).
Proof.
  intros Hreach Hcur Hne He Hd Hbig.
  pose proof (reachable_wf w Hreach) as Hwf.
  pose proof (select_overflow (graph w) current line He Hd Hbig) as Hsel.
  split_and!.
  - rewrite (stoi_digits _ He Hd).
    destruct (Z.ltb_spec INT_MAX (value (trim_copy line))); [done|lia].
  - exact (Hsel w eq_refl).
  - apply (playLoop_continue w current cur); [done..| |done].
    destruct current as [l|]; [|done]. intros c Hc.
    by apply (wf_deref_child w l cur c Hwf Hcur).
Qed.

Lemma C10_witness :
  reachable (built story) /\
  select (Some 1%positive) " 99999999999 " (built story) =
    Some (Some 1%positive,
          emit ("Invalid selection. Please enter a valid number." +:+ endl) (built story)).
Proof.
  assert (Hr : reachable (built story)) by (exists story; vm_compute; reflexivity).
  split; [exact Hr|].
  refine (proj1 (proj2 (C10_conversion_overflow (built story) (Some 1%positive)
            (mkNode "1" " start " [Some 2%positive; Some 3%positive])
            " 99999999999 " [] Hr _ _ _ _ _))).
  - vm_compute. reflexivity.
  - discriminate.
  - vm_compute. reflexivity.
  - vm_compute. reflexivity.
  - vm_compute. reflexivity.
Defined.

(** * Further properties of the code *)

(** ** [trim_copy] *)

Lemma append_cons c (a b : string) : String c a +:+ b = String c (a +:+ b).
Proof. reflexivity. Qed.

Lemma skip_front_split s :
  exists a, s = a +:+ skip_front s /\ all_space a = true.
Proof.
  induction s as [|c s (a & Ha & Hsp)]; simpl.
  - by exists EmptyString.
  - destruct (isspace c) eqn:Hc.
    + exists (String c a). rewrite append_cons, <-Ha. simpl. by rewrite Hc, Hsp.
    + by exists EmptyString.
Qed.

Lemma skip_front_first s c :
  first_char (skip_front s) = Some c -> isspace c = false.
Proof.
  induction s as [|x s IH]; simpl; [done|].
  destruct (isspace x) eqn:Hx; [done|]. simpl. congruence.
Qed.

Lemma skip_front_id s :
  (forall c, first_char s = Some c -> isspace c = false) -> skip_front s = s.
Proof.
  destruct s as [|c s]; simpl; [done|]. intros Hc. by rewrite (Hc c).
Qed.

Lemma drop_back_step c s :
  drop_back (String c s) =
    match drop_back s with
    | EmptyString => if isspace c then EmptyString else String c EmptyString
    | r => String c r
    end.
Proof. reflexivity. Qed.

Lemma drop_back_split s :
  exists b, s = drop_back s +:+ b /\ all_space b = true.
Proof.
  induction s as [|c s (b & Hb & Hsp)]; [by exists EmptyString|].
  rewrite drop_back_step. destruct (drop_back s) as [|c' r] eqn:Hr.
  - change (EmptyString +:+ b) with b in Hb. subst b.
    destruct (isspace c) eqn:Hc.
    + exists (String c s). split; [done|]. simpl. by rewrite Hc, Hsp.
    + by exists s.
  - exists b. by rewrite append_cons, <-Hb.
Qed.

Lemma drop_back_last s c :
  last_char (drop_back s) = Some c -> isspace c = false.
Proof.
  induction s as [|x s IH]; [done|].
  rewrite drop_back_step. destruct (drop_back s) as [|c' r] eqn:Hr.
  - destruct (isspace x) eqn:Hx; simpl; [done|congruence].
  - intros Hl. apply IH. exact Hl.
Qed.

Lemma drop_back_first s c :
  first_char (drop_back s) = Some c -> first_char s = Some c.
Proof.
  destruct s as [|x s]; [done|].
  rewrite drop_back_step. destruct (drop_back s); [|done].
  by destruct (isspace x).
Qed.

Lemma drop_back_id s :
  (forall c, last_char s = Some c -> isspace c = false) -> drop_back s = s.
Proof.
  induction s as [|x s IH]; [done|]. intros Hl.
  rewrite drop_back_step. destruct s as [|y s].
  - simpl. by rewrite (Hl x).
  - rewrite IH; [done|]. intros c Hc. by apply Hl.
Qed.

Lemma drop_back_empty s : drop_back s = EmptyString <-> all_space s = true.
Proof.
  induction s as [|x s IH]; [done|].
  rewrite drop_back_step. simpl. rewrite andb_true_iff, <-IH.
  destruct (drop_back s); [|split; [done|by intros [_ ?]]].
  destruct (isspace x); split; try done. by intros [? _].
Qed.

Lemma skip_front_empty s : skip_front s = EmptyString <-> all_space s = true.
Proof.
  induction s as [|x s IH]; simpl; [done|].
  destruct (isspace x); simpl; [exact IH|]. split; done.
Qed.

Lemma all_space_skip_front s : all_space (skip_front s) = true -> all_space s = true.
Proof.
  induction s as [|x s IH]; simpl; [done|].
  destruct (isspace x) eqn:Hx; simpl; [exact IH|]. by rewrite Hx.
Qed.

(** X1.  Trimming twice is trimming once. *)
Theorem X1_trim_copy_idempotent (s : string) :
  trim_copy (trim_copy s) = trim_copy s.
Proof.
  unfold trim_copy. rewrite skip_front_id.
  - apply drop_back_id. apply drop_back_last.
  - intros c Hc. apply drop_back_first in Hc. by apply skip_front_first in Hc.
Qed.

(** X2.  The result of [trim_copy] neither begins nor ends with a white
    space character. *)
Theorem X2_trim_copy_no_outer_space (s : string) (c : ascii) :
  (first_char (trim_copy s) = Some c -> isspace c = false) /\
  (last_char (trim_copy s) = Some c -> isspace c = false).
Proof.
  unfold trim_copy. split.
  - intros Hc. apply drop_back_first in Hc. by apply skip_front_first in Hc.
  - apply drop_back_last.
Qed.

(** X3.  [trim_copy] removes white space only, and only at the two ends:
    the argument is its result between two runs of white space. *)
Theorem X3_trim_copy_split (s : string) :
  exists a b, s = a +:+ trim_copy s +:+ b /\
    all_space a = true /\ all_space b = true.
Proof.
  destruct (skip_front_split s) as (a & Ha & Hsa).
  destruct (drop_back_split (skip_front s)) as (b & Hb & Hsb).
  exists a, b. unfold trim_copy. by rewrite <-Hb, <-Ha.
Qed.

(** X4.  [trim_copy] gives the empty string exactly on the strings made of
    white space only (the empty one among them). *)
Theorem X4_trim_copy_empty (s : string) :
  is_empty (trim_copy s) = true <-> all_space s = true.
Proof.
  assert (Hes : forall t, is_empty t = true <-> t = EmptyString).
  { intros [|? ?]; split; done. }
  rewrite Hes. unfold trim_copy. rewrite drop_back_empty. split.
  - apply all_space_skip_front.
  - intros Hs. apply skip_front_empty in Hs. by rewrite Hs.
Qed.

(** ** The sort key and the comparison of [printAll] *)

(** X5.  The lambda handed to [std::sort] is a strict total order on the
    (id, key) pairs: irreflexive, asymmetric, transitive, and it orders any
    two different pairs; so [std::sort] is called within its contract. *)
Theorem X5_keyLess_strict_total :
  (forall a, keyLess a a = false) /\
  (forall a b, keyLess a b = true -> keyLess b a = false) /\
  (forall a b c, keyLess a b = true -> keyLess b c = true -> keyLess a c = true) /\
  (forall a b, a <> b -> keyLess a b = true \/ keyLess b a = true).
Proof.
  assert (Hirr : forall a, keyLess a a = false).
  { intros a. destruct (keyLess a a) eqn:Ha; [|done].
    apply keyLess_spec in Ha as [?|[_ Hlt]]; [lia|].
    by apply lex_lt_le_ne in Hlt as [_ ?]. }
  split_and!; [exact Hirr|exact keyLess_asym| |].
  - intros a b c Hab Hbc. apply keyLe_strict.
    + etrans; by apply keyLess_asym.
    + intros ->. pose proof (keyLess_asym _ _ Hab) as Hle1.
      pose proof (keyLess_asym _ _ Hbc) as Hle2.
      assert (b = c) as -> by (by apply (anti_symm keyLe)).
      pose proof (Hirr c). congruence.
  - intros a b Hne. destruct (keyLess b a) eqn:Hba; [by right|].
    left. by apply keyLe_strict.
Qed.

(** X6.  The key of an id made of digits only is its value, capped at the
    largest [long long]; the key of any other id is that largest value; no
    id makes the computation of the key fail, and no key is negative. *)
Theorem X6_numericKey_value (s : string) :
  (numeric s -> numericKey s = Z.min (value s) LLONG_MAX) /\
  (~ numeric s -> numericKey s = LLONG_MAX) /\
  0 <= numericKey s <= LLONG_MAX.
Proof.
  assert (Hmax : 0 <= LLONG_MAX) by (by vm_compute).
  destruct (decide (below_max s)) as [Hb|Hb].
  - rewrite (numericKey_below s Hb). pose proof Hb as [[Hne Hd] Hv].
    pose proof (value_nonneg s Hd). split_and!; [lia| |lia..].
    intros Hn. by destruct Hn.
  - rewrite (numericKey_other s Hb). split_and!; [|done|lia..].
    intros Hn. destruct (Z.ltb_spec (value s) LLONG_MAX) as [Hlt|Hge]; [|lia].
    by destruct Hb.
Qed.

(** ** More on construction *)

Section MoreConstruction.
Context {T : Type} `{Payload T}.
Implicit Types (w : State T) (n : Node T).

Lemma wf_emit s w : wf w -> wf (emit s w).
Proof. intros [H1 H2 H3 H4 H5]. by split. Qed.

Lemma node_at_registered w k l n :
  nodesMap w !! k = Some (Some l) -> heap w !! l = Some n -> node_at w k = Some n.
Proof. intros Hk Hl. unfold node_at. by rewrite Hk. Qed.

Lemma node_at_unregistered w k : nodesMap w !! k = None -> node_at w k = None.
Proof. intros Hk. unfold node_at. by rewrite Hk. Qed.

(** What an "ensure" step leaves as it was, and the node it answers. *)
Lemma ensure_node_frame w k v l w1 :
  wf w -> ensure_node k v w = (Some l, w1) ->
  (forall l' n, heap w !! l' = Some n -> heap w1 !! l' = Some n) /\
  (forall k', is_Some (nodesMap w1 !! k') <-> is_Some (nodesMap w !! k') \/ k' = k) /\
  (forall k' q, nodesMap w !! k' = Some q -> nodesMap w1 !! k' = Some q) /\
  heap w1 !! l = Some (default (mkNode k v []) (node_at w k)).
Proof.
  intros Hwf. unfold ensure_node.
  destruct (nodesMap w !! k) as [q|] eqn:Hk.
  - intros [= Hq Hw]. subst q w1.
    destruct (wf_registry w Hwf k _ Hk) as (l' & n & [= <-] & Hl & Hid).
    rewrite (node_at_registered w k l n Hk Hl). simpl. split_and!; try done.
    intros k'. split; [by left|]. intros [?| ->]; [done|by eexists].
  - intros [= Hq Hw]. subst l w1. simpl. rewrite (node_at_unregistered w k Hk). simpl.
    pose proof (fresh_heap w) as Hf. split_and!.
    + intros l' n Hl'. rewrite lookup_insert_ne; [done|]. congruence.
    + intros k'. rewrite lookup_insert_is_Some. split.
      * intros [->|[_ ?]]; [by right|by left].
      * intros [?| ->]; [|by left]. destruct (decide (k = k')); [by left|by right].
    + intros k' q Hk'. rewrite lookup_insert_ne; [done|]. congruence.
    + by rewrite lookup_insert_eq.
Qed.

(** The whole effect of [addNode] on a well-formed graph. *)
Lemma addNode_effect w p c v :
  wf w ->
  exists lp lc w', addNode p c v w = Some (tt, w') /\ wf w' /\
    root w' = root w /\ cout w' = cout w /\
    nodesMap w' !! p = Some (Some lp) /\ nodesMap w' !! c = Some (Some lc) /\
    (forall k, is_Some (nodesMap w' !! k) <->
               is_Some (nodesMap w !! k) \/ k = p \/ k = c) /\
    (forall k q, nodesMap w !! k = Some q -> nodesMap w' !! k = Some q) /\
    heap w' !! lp =
      Some (let pb := default (mkNode p default_value []) (node_at w p) in
            mkNode p (data pb)
              (if decide (Some lc ∈ children pb) then children pb
               else children pb ++ [Some lc])) /\
    (forall l n, l <> lp -> heap w !! l = Some n -> heap w' !! l = Some n).
Proof.
  intros Hwf. rewrite addNode_unfold.
  destruct (ensure_node_spec w p default_value Hwf)
    as (lp & w1 & He1 & Hwf1 & Hr1 & Hc1 & Hp1 & _).
  destruct (ensure_node_frame w p default_value lp w1 Hwf He1)
    as (Hh1 & Hd1 & Hk1 & Hlp1).
  destruct (ensure_node_spec w1 c v Hwf1)
    as (lc & w2 & He2 & Hwf2 & Hr2 & Hc2 & Hc2' & _).
  destruct (ensure_node_frame w1 c v lc w2 Hwf1 He2) as (Hh2 & Hd2 & Hk2 & Hlc2).
  rewrite He1, He2.
  set (pb := default (mkNode p default_value []) (node_at w p)) in *.
  pose proof (Hh2 lp pb Hlp1) as Hlp2.
  assert (Hidp : id pb = p).
  { destruct (wf_registry w1 Hwf1 p _ Hp1) as (l & n & [= <-] & Hl & Hid). congruence. }
  destruct (wf_registry w2 Hwf2 c _ Hc2') as (lc' & cn & [= <-] & Hlc & _).
  destruct (link_child_spec w2 lp lc pb Hwf2 Hlp2)
    as (w' & -> & Hwf' & Hr' & Hc' & Hm' & chs & Hh' & _ & Hchs); [by eexists|].
  exists lp, lc, w'. split_and!; try done; try congruence.
  - rewrite Hm'. by apply Hk2.
  - intros k. rewrite Hm', Hd2, Hd1. tauto.
  - intros k q Hk. rewrite Hm'. by apply Hk2, Hk1.
  - cbv zeta. rewrite Hh', lookup_insert_eq, Hidp. do 2 f_equal.
    destruct Hchs as [(Hin & -> & _)|(Hnin & ->)].
    + by rewrite decide_True.
    + by rewrite decide_False.
  - intros l n Hne Hl. rewrite Hh', lookup_insert_ne by done. by apply Hh2, Hh1.
Qed.

Lemma keeps_edges_refl w : keeps_edges w w.
Proof. split; [done|]. intros l n Hl. by exists n. Qed.

Lemma keeps_edges_trans w1 w2 w3 :
  keeps_edges w1 w2 -> keeps_edges w2 w3 -> keeps_edges w1 w3.
Proof.
  intros [Ha1 Ha2] [Hb1 Hb2]. split; [by auto|].
  intros l n Hl. destruct (Ha2 l n Hl) as (n' & Hl' & Hi & Hp).
  destruct (Hb2 l n' Hl') as (n'' & Hl'' & Hi' & Hp').
  exists n''. split_and!; [done|congruence|by etrans].
Qed.

(** In a well-formed graph the node at the address registered for an id is
    the only node with that id. *)
Lemma wf_same_address w w' l n k lk :
  wf w -> wf w' -> heap w !! l = Some n ->
  (forall k q, nodesMap w !! k = Some q -> nodesMap w' !! k = Some q) ->
  nodesMap w' !! k = Some (Some lk) -> l = lk -> id n = k.
Proof.
  intros Hwf Hwf' Hl Hkeep Hk <-.
  pose proof (Hkeep _ _ (wf_owned w Hwf l n Hl)) as Hreg.
  destruct (wf_registry w' Hwf' k _ Hk) as (l1 & n1 & [= <-] & Hl1 & Hid1).
  destruct (wf_registry w' Hwf' (id n) _ Hreg) as (l2 & n2 & [= <-] & Hl2 & Hid2).
  congruence.
Qed.

Lemma addNode_keeps_edges w p c v :
  wf w -> exists w', addNode p c v w = Some (tt, w') /\ wf w' /\ keeps_edges w w'.
Proof.
  intros Hwf.
  destruct (addNode_effect w p c v Hwf)
    as (lp & lc & w' & Hrun & Hwf' & _ & _ & Hp & Hc & _ & Hkeep & Hlp & Hoth).
  exists w'. split_and!; [done..|]. split; [done|].
  intros l n Hl. destruct (decide (l = lp)) as [->|Hne].
  - pose proof (wf_same_address w w' lp n p lp Hwf Hwf' Hl Hkeep Hp eq_refl) as Hid.
    pose proof (wf_owned w Hwf lp n Hl) as Hreg. rewrite Hid in Hreg.
    rewrite (node_at_registered w p lp n Hreg Hl) in Hlp. simpl in Hlp.
    eexists. split; [exact Hlp|]. simpl. split; [done|].
    destruct (decide (Some lc ∈ children n)); [done|]. by apply prefix_app_r.
  - exists n. split_and!; [by apply Hoth|done|done].
Qed.

Lemma createRoot_keeps_edges w k v :
  wf w -> exists w', createRoot k v w = Some (tt, w') /\ wf w' /\ keeps_edges w w'.
Proof.
  intros Hwf.
  destruct (createRoot_spec w k v Hwf) as (l & w' & Hrun & Hwf' & _ & _ & Hcase).
  exists w'. split_and!; [done..|].
  destruct Hcase as [(n & Hk & Hl & Hm & Hh)|(Hnone & Hl & Hm & Hh)].
  - split; [by rewrite Hm|]. intros l' n' Hl'. rewrite Hh.
    destruct (decide (l = l')) as [<-|Hne].
    + rewrite lookup_insert_eq. eexists. split; [done|]. simpl.
      assert (n' = n) as -> by congruence. done.
    + rewrite lookup_insert_ne by done. by exists n'.
  - split.
    + intros k' q Hk'. rewrite Hm, lookup_insert_ne; [done|]. congruence.
    + intros l' n' Hl'. exists n'. rewrite Hh, lookup_insert_ne; [done|]. congruence.
Qed.

Lemma run_calls_keeps_edges cs w :
  wf w -> exists w', run_calls cs w = Some (tt, w') /\ wf w' /\ keeps_edges w w'.
Proof.
  revert w. induction cs as [|c cs IH]; intros w Hwf; simpl.
  - exists w. split_and!; [done..|]. apply keeps_edges_refl.
  - unfold bind. destruct c as [k v|p c v]; simpl.
    + destruct (createRoot_keeps_edges w k v Hwf) as (w1 & -> & Hwf1 & Hk1).
      destruct (IH w1 Hwf1) as (w' & Hrun & Hwf' & Hk').
      exists w'. split_and!; [done..|]. by eapply keeps_edges_trans.
    + destruct (addNode_keeps_edges w p c v Hwf) as (w1 & -> & Hwf1 & Hk1).
      destruct (IH w1 Hwf1) as (w' & Hrun & Hwf' & Hk').
      exists w'. split_and!; [done..|]. by eapply keeps_edges_trans.
Qed.

(** The ids registered by a script are the ids it names. *)
Lemma run_calls_ids cs w :
  wf w ->
  exists w', run_calls cs w = Some (tt, w') /\ wf w' /\
    forall k, is_Some (nodesMap w' !! k) <->
              is_Some (nodesMap w !! k) \/ k ∈ mentioned cs.
Proof.
  revert w. induction cs as [|c cs IH]; intros w Hwf; simpl.
  - exists w. split_and!; [done..|]. intros k. unfold mentioned. simpl.
    rewrite elem_of_nil. tauto.
  - unfold bind. destruct c as [k0 v|p c v]; simpl.
    + destruct (createRoot_spec w k0 v Hwf) as (l & w1 & -> & Hwf1 & _ & _ & Hcase).
      destruct (IH w1 Hwf1) as (w' & Hrun & Hwf' & Hids).
      exists w'. split_and!; [done..|]. intros k. rewrite Hids.
      unfold mentioned. simpl. fold (mentioned cs). rewrite elem_of_cons.
      destruct Hcase as [(n & Hk & _ & -> & _)|(_ & _ & -> & _)].
      * split; [tauto|]. intros [?|[->|?]]; [tauto| |tauto]. left. by eexists.
      * rewrite lookup_insert_is_Some. split.
        -- intros [[->|[_ ?]]|?]; tauto.
        -- intros [?|[->|?]]; [|tauto..].
           destruct (decide (k0 = k)); [left; by left|left; by right].
    + destruct (addNode_effect w p c v Hwf)
        as (lp & lc & w1 & -> & Hwf1 & _ & _ & _ & _ & Hdom & _).
      destruct (IH w1 Hwf1) as (w' & Hrun & Hwf' & Hids).
      exists w'. split_and!; [done..|]. intros k. rewrite Hids, Hdom.
      unfold mentioned. simpl. fold (mentioned cs). rewrite !elem_of_cons. tauto.
Qed.

End MoreConstruction.

Section ConstructionProperties.
Context {T : Type} `{Payload T}.
Implicit Types (w : State T) (n : Node T).

(** A call that is not a [createRoot] on [k] leaves the payload of [k]. *)
Lemma run_call_payload w c k n :
  wf w -> ~ roots_at k c -> node_at w k = Some n ->
  exists w' n', run_call c w = Some (tt, w') /\ wf w' /\
    node_at w' k = Some n' /\ data n' = data n.
Proof.
  intros Hwf Hnot Hn. destruct c as [k0 v|p c v]; simpl in *.
  - destruct (createRoot_spec w k0 v Hwf) as (l & w' & Hrun & Hwf' & _ & _ & Hcase).
    exists w', n. split_and!; [done..| |done].
    unfold node_at in Hn |- *.
    destruct (nodesMap w !! k) as [[lk|]|] eqn:Hk; simpl in Hn; [|done..].
    destruct (wf_registry w Hwf k _ Hk) as (lk' & nk & [= <-] & Hlk & Hidk).
    destruct Hcase as [(n0 & Hk0 & Hl & -> & ->)|(Hnone & Hl & -> & ->)].
    + rewrite Hk. simpl. rewrite lookup_insert_ne; [done|]. intros <-.
      destruct (wf_registry w Hwf k0 _ Hk0) as (l' & n1 & [= <-] & Hl1 & Hid1).
      congruence.
    + rewrite lookup_insert_ne by congruence. rewrite Hk. simpl.
      rewrite lookup_insert_ne; [done|]. congruence.
  - destruct (addNode_spec w p c v Hwf) as (lp & lc & w' & Hrun & Hwf' & _ & _ & Hg & _).
    destruct (grows_node_at w w' k n Hg Hn) as (n' & Hn' & _ & Hd).
    by exists w', n'.
Qed.

(** X7.  After any construction script the registered ids are exactly the
    ids the script names: [findNode] answers a live node carrying the id for
    each of them, and the null pointer for every other id. *)
Theorem X7_registered_ids (cs : list (@call T)) :
  exists w, run_calls cs Tree_new = Some (tt, w) /\
    forall k,
      (k ∈ mentioned cs ->
         exists l n, findNode k w = Some (Some l, w) /\
           heap w !! l = Some n /\ id n = k) /\
      (k ∉ mentioned cs -> findNode k w = Some (None, w)).
Proof.
  destruct (run_calls_ids cs Tree_new wf_Tree_new) as (w & Hrun & Hwf & Hids).
  exists w. split; [exact Hrun|]. intros k. unfold findNode, bind, find. split.
  - intros Hk. destruct (proj2 (Hids k) (or_intror Hk)) as [p Hp].
    destruct (wf_registry w Hwf k p Hp) as (l & n & -> & Hl & Hid).
    exists l, n. by rewrite Hp.
  - intros Hk. destruct (nodesMap w !! k) as [p|] eqn:Hp; [|done].
    exfalso. destruct (proj1 (Hids k)) as [Hin|Hin]; [by rewrite Hp; eexists| |done].
    simpl in Hin. rewrite lookup_empty in Hin. by destruct Hin.
Qed.

(** X8.  After [addNode(parentID, childID, value)] the payload of the
    parent is what it was before, or the default value of the payload type
    if the parent was not registered, also when parent and child are the
    same id. *)
Theorem X8_addNode_parent_payload (w : State T) (parentID childID : string) (value : T) :
  reachable w ->
  exists w', addNode parentID childID value w = Some (tt, w') /\
    payload w' parentID = Some (default default_value (payload w parentID)).
Proof.
  intros Hreach. pose proof (reachable_wf w Hreach) as Hwf.
  destruct (addNode_effect w parentID childID value Hwf)
    as (lp & lc & w' & Hrun & _ & _ & _ & Hp & _ & _ & _ & Hlp & _).
  exists w'. split; [exact Hrun|].
  unfold payload at 1. rewrite (node_at_registered w' parentID lp _ Hp Hlp). simpl.
  unfold payload. by destruct (node_at w parentID).
Qed.

(** X9.  [addNode] changes one children list only, the parent's: the child
    pointer is appended at its end unless the list already holds it, in
    which case the list is as before; every node registered under another
    id is as before, and so is the root. *)
Theorem X9_addNode_appends_edge (w : State T) (parentID childID : string) (value : T) :
  reachable w ->
  exists w' lc pn',
    addNode parentID childID value w = Some (tt, w') /\
    nodesMap w' !! childID = Some (Some lc) /\
    node_at w' parentID = Some pn' /\
    (let old := default [] (children <$> node_at w parentID) in
     children pn' = if decide (Some lc ∈ old) then old else old ++ [Some lc]) /\
    root w' = root w /\
    (forall k n, k <> parentID -> node_at w k = Some n -> node_at w' k = Some n).
Proof.
  intros Hreach. pose proof (reachable_wf w Hreach) as Hwf.
  destruct (addNode_effect w parentID childID value Hwf)
    as (lp & lc & w' & Hrun & Hwf' & Hroot & _ & Hp & Hc & _ & Hkeep & Hlp & Hoth).
  eexists w', lc, _. split_and!; [exact Hrun|exact Hc| | |exact Hroot|].
  - exact (node_at_registered w' parentID lp _ Hp Hlp).
  - simpl. by destruct (node_at w parentID).
  - intros k n Hne Hn. unfold node_at in Hn.
    destruct (nodesMap w !! k) as [[l|]|] eqn:Hk; simpl in Hn; [|done..].
    apply (node_at_registered w' k l n); [by apply Hkeep|].
    apply Hoth; [|done]. intros ->.
    destruct (wf_registry w Hwf k _ Hk) as (l' & n0 & [= <-] & Hl & Hid).
    pose proof (wf_same_address w w' lp n0 parentID lp Hwf Hwf' Hl Hkeep Hp eq_refl).
    congruence.
Qed.

(** X10.  Two parents linked to the same child id share one node: after
    [addNode(a, c, x)] and [addNode(b, c, y)] the children of [a] and the
    children of [b] both hold the pointer registered for [c]. *)
Theorem X10_shared_child (w : State T) (a b c : string) (x y : T) :
  reachable w ->
  exists w' lc na nb,
    (addNode a c x >> addNode b c y) w = Some (tt, w') /\
    nodesMap w' !! c = Some (Some lc) /\
    node_at w' a = Some na /\ node_at w' b = Some nb /\
    Some lc ∈ children na /\ Some lc ∈ children nb.
Proof.
  intros Hreach. pose proof (reachable_wf w Hreach) as Hwf.
  destruct (addNode_spec w a c x Hwf)
    as (la & lc & w1 & Hrun1 & Hwf1 & _ & _ & _ & Ha1 & Hc1 & (na1 & Hna1 & Hin1) & _).
  destruct (addNode_spec w1 b c y Hwf1)
    as (lb & lc' & w2 & Hrun2 & Hwf2 & _ & _ & Hg & Hb2 & Hc2 & (nb & Hnb & Hin2) & _).
  destruct (addNode_keeps_edges w1 b c y Hwf1) as (w2' & Hrun2' & _ & Hk1 & Hk2).
  assert (w2' = w2) as -> by congruence.
  assert (lc' = lc) as -> by (pose proof (Hk1 _ _ Hc1); congruence).
  destruct (Hk2 la na1 Hna1) as (na & Hna & _ & Hpre).
  exists w2, lc, na, nb. split_and!; try done.
  - unfold bind. by rewrite Hrun1.
  - apply (node_at_registered w2 a la na); [by apply Hk1|done].
  - by apply (node_at_registered w2 b lb nb).
  - destruct Hpre as [k ->]. apply elem_of_app. by left.
Qed.

(** X11.  No sequence of construction calls unregisters or moves a node,
    changes its id, removes an edge or changes the place of an edge in its
    children list: choice [i + 1] of a node keeps leading to the same child. *)
Theorem X11_construction_keeps_edges (w : State T) (cs : list (@call T)) :
  reachable w ->
  exists w', run_calls cs w = Some (tt, w') /\
    (forall k q, nodesMap w !! k = Some q -> nodesMap w' !! k = Some q) /\
    (forall l n i c, heap w !! l = Some n -> children n !! i = Some c ->
       exists n', heap w' !! l = Some n' /\ id n' = id n /\
         children n' !! i = Some c).
Proof.
  intros Hreach. pose proof (reachable_wf w Hreach) as Hwf.
  destruct (run_calls_keeps_edges cs w Hwf) as (w' & Hrun & _ & Hk1 & Hk2).
  exists w'. split_and!; [done..|].
  intros l n i c Hl Hi. destruct (Hk2 l n Hl) as (n' & Hl' & Hid & Hpre).
  exists n'. split_and!; [done..|]. by eapply prefix_lookup_Some.
Qed.

(** X12.  The payload of a registered node changes only through a
    [createRoot] on its id: a script without one leaves it as it was. *)
Theorem X12_payload_kept (w : State T) (cs : list (@call T)) (k : string) (n : Node T) :
  reachable w -> Forall (fun c => ~ roots_at k c) cs -> node_at w k = Some n ->
  exists w', run_calls cs w = Some (tt, w') /\ payload w' k = Some (data n).
Proof.
  intros Hreach. pose proof (reachable_wf w Hreach) as Hwf. clear Hreach.
  revert w n Hwf. induction cs as [|c cs IH]; intros w n Hwf Hcs Hn; simpl.
  - exists w. split; [done|]. unfold payload. by rewrite Hn.
  - apply Forall_cons in Hcs as [Hc Hcs]. unfold bind.
    destruct (run_call_payload w c k n Hwf Hc Hn) as (w1 & n1 & -> & Hwf1 & Hn1 & Hd).
    destruct (IH w1 n1 Hwf1 Hcs Hn1) as (w' & Hrun & Hp).
    exists w'. split; [done|]. by rewrite Hp, Hd.
Qed.

(** X13.  After any construction script every pointer held by the graph,
    the root and each entry of each children list, is the address of a live
    node that the registry holds under the id of that node; no children list
    holds a null pointer. *)
Theorem X13_references_registered (cs : list (@call T)) :
  exists w, run_calls cs Tree_new = Some (tt, w) /\
    (forall l, root w = Some l ->
       exists n, heap w !! l = Some n /\ nodesMap w !! id n = Some (Some l)) /\
    (forall l n c, heap w !! l = Some n -> c ∈ children n ->
       exists l' n', c = Some l' /\ heap w !! l' = Some n' /\
         nodesMap w !! id n' = Some (Some l')).
Proof.
  destruct (run_calls_wf cs Tree_new wf_Tree_new) as (w & Hrun & Hwf).
  exists w. split; [exact Hrun|]. split.
  - intros l Hl. destruct (wf_root w Hwf l Hl) as [n Hn].
    exists n. split; [done|]. by apply (wf_owned w Hwf).
  - intros l n c Hl Hc.
    destruct (wf_children w Hwf l n c Hl Hc) as (l' & -> & [n' Hn']).
    exists l', n'. split_and!; [done..|]. by apply (wf_owned w Hwf).
Qed.

Lemma run_calls_last_root cs w :
  wf w ->
  exists w', run_calls cs w = Some (tt, w') /\
    match last_root cs with
    | Some k => exists l, root w' = Some l /\ nodesMap w' !! k = Some (Some l)
    | None => root w' = root w
    end.
Proof.
  revert w. induction cs as [|c cs IH]; intros w Hwf; simpl.
  - by exists w.
  - unfold bind.
    assert (Hstep : exists w1, run_call c w = Some (tt, w1) /\ wf w1 /\
              match c with
              | CreateRoot k _ => exists l, root w1 = Some l /\ nodesMap w1 !! k = Some (Some l)
              | AddNode _ _ _ => root w1 = root w
              end).
    { destruct c as [k v|p c v]; simpl.
      - destruct (createRoot_spec w k v Hwf) as (l & w1 & Hrun & Hwf1 & _ & Hr & Hcase).
        exists w1. split_and!; [done..|]. exists l. split; [done|].
        destruct Hcase as [(n & Hk & _ & -> & _)|(_ & _ & -> & _)]; [done|].
        by rewrite lookup_insert_eq.
      - destruct (addNode_spec w p c v Hwf) as (lp & lc & w1 & Hrun & Hwf1 & _ & Hr & _).
        by exists w1. }
    destruct Hstep as (w1 & -> & Hwf1 & Hc).
    destruct (IH w1 Hwf1) as (w' & Hrun & Hlast).
    destruct (run_calls_keeps_edges cs w1 Hwf1) as (w'' & Hrun' & _ & Hkeep & _).
    assert (w'' = w') as -> by congruence.
    exists w'. split; [done|].
    destruct (last_root cs) as [k|]; [done|].
    destruct c as [k v|p c v]; [|congruence].
    destruct Hc as (l & Hr & Hk). exists l. split; [congruence|by apply Hkeep].
Qed.

(** X14.  After any construction script the root is null if the script has
    no [createRoot], and otherwise is the node registered under the id of
    its last [createRoot], whatever [addNode] calls follow. *)
Theorem X14_root_is_last_createRoot (cs : list (@call T)) :
  exists w, run_calls cs Tree_new = Some (tt, w) /\
    (last_root cs = None -> root w = None) /\
    (forall k, last_root cs = Some k ->
       exists l, root w = Some l /\ nodesMap w !! k = Some (Some l)).
Proof.
  destruct (run_calls_last_root cs Tree_new wf_Tree_new) as (w & Hrun & Hlast).
  exists w. split; [exact Hrun|]. destruct (last_root cs) as [k0|]; split.
  - done.
  - by intros k [= <-].
  - by intros _.
  - done.
Qed.


End ConstructionProperties.

(** ** More on the traversal *)

Section MorePlay.
Context {T : Type} `{Payload T}.
Implicit Types (w : State T) (g : ptr * gmap string ptr * gmap loc (Node T)).

Lemma trim_copy_blank s : all_space s = true -> is_empty (trim_copy s) = true.
Proof.
  intros Hs. unfold trim_copy. apply skip_front_empty in Hs. by rewrite Hs.
Qed.

Lemma trim_copy_not_blank s : all_space s = false -> is_empty (trim_copy s) = false.
Proof.
  intros Hs. destruct (is_empty (trim_copy s)) eqn:He; [|done].
  assert (Ht : trim_copy s = EmptyString) by (by destruct (trim_copy s)).
  unfold trim_copy in Ht. apply drop_back_empty, all_space_skip_front in Ht.
  congruence.
Qed.

Lemma yields_playLoop_leaf g input current cur :
  deref g.2 current = Some cur -> children cur = [] ->
  yields g (playLoop input current) tt
    ((trim_copy (to_text (data cur)) +:+ endl) +:+ leaf_notice).
Proof.
  intros Hcur Hch. rewrite append_assoc. unfold leaf_notice.
  destruct input as [|line rest]; simpl.
  all: eapply yields_bind_pure; [by apply yields_load|].
  all: do 2 (eapply yields_bind; [apply yields_print|]); rewrite Hch.
  all: do 4 (eapply yields_bind; [apply yields_print|]); apply yields_print.
Qed.

Lemma yields_playLoop_eof g current cur :
  deref g.2 current = Some cur -> children cur <> [] ->
  (forall c, c ∈ children cur -> is_Some (deref g.2 c)) ->
  yields g (playLoop [] current) tt (prompt_text g.2 cur +:+ eof_notice).
Proof.
  intros Hcur Hne Hch.
  unfold prompt_text, eof_notice. rewrite !append_assoc. simpl.
  eapply yields_bind_pure; [by apply yields_load|].
  do 2 (eapply yields_bind; [apply yields_print|]).
  destruct (children cur) as [|c chs] eqn:Hcs; [done|].
  do 2 (eapply yields_bind; [apply yields_print|]).
  eapply yields_bind; [by apply yields_print_options|].
  eapply yields_bind; [apply yields_print|].
  eapply yields_bind; [apply yields_print|].
  eapply yields_bind; apply yields_print.
Qed.

Lemma playLoop_leaf w input current cur :
  deref (heap w) current = Some cur -> children cur = [] ->
  playLoop input current w =
    Some (tt, emit ((trim_copy (to_text (data cur)) +:+ endl) +:+ leaf_notice) w).
Proof.
  intros Hcur Hch.
  exact (yields_playLoop_leaf (graph w) input current cur Hcur Hch w eq_refl).
Qed.

(** [select] answers the node it was at or one of its children. *)
Lemma select_cases w l cur line :
  wf w -> heap w !! l = Some cur ->
  exists next s, yields (graph w) (select (Some l) line) next s /\
    (next = Some l \/ next ∈ children cur).
Proof.
  intros Hwf Hl.
  assert (Hcur : deref (graph w).2 (Some l) = Some cur) by done.
  destruct (is_empty (trim_copy line)) eqn:He.
  { eexists _, _. split; [by apply select_empty | by left]. }
  destruct (all_digits (trim_copy line)) eqn:Hd.
  2: { eexists _, _. split; [by apply select_not_number | by left]. }
  destruct (Z.ltb_spec INT_MAX (value (trim_copy line))) as [Hov|Hfit].
  { eexists _, _. split; [by apply select_overflow | by left]. }
  destruct (decide (1 <= value (trim_copy line) <= Z.of_nat (length (children cur))))
    as [Hin|Hout].
  - destruct (lookup_lt_is_Some_2 (children cur) (Z.to_nat (value (trim_copy line) - 1)))
      as [next Hnext]; [lia|].
    exists next, endl. split.
    + by apply (select_move (graph w) (Some l) cur).
    + right. by eapply list_elem_of_lookup_2.
  - eexists _, _. split; [|by left].
    apply (select_out_of_range (graph w) (Some l) cur); [done..|lia].
Qed.

Lemma wf_children_live w current cur :
  wf w -> deref (heap w) current = Some cur ->
  forall c, c ∈ children cur -> is_Some (deref (heap w) c).
Proof.
  intros Hwf Hcur c Hc. destruct current as [l|]; [|done].
  by apply (wf_deref_child w l cur c Hwf Hcur).
Qed.

(** Both readers return on a well-formed graph, having written some text. *)
Lemma readers_return w input :
  wf w ->
  (exists s, printAll w = Some (tt, emit s w)) /\
  (exists s, playGame input w = Some (tt, emit s w)).
Proof.
  intros Hwf. split.
  - unfold printAll. destruct (decide (nodesMap w = ∅)) as [He|Hne].
    + eexists. exact (yields_printAll_in_empty w _ He w eq_refl).
    + eexists. exact (yields_printAll_in w _ Hwf (reflexivity _) Hne w eq_refl).
  - destruct (root w) as [l|] eqn:Hroot.
    + destruct (playGame_rooted w input Hwf) as [body Hbody]; [congruence|].
      eexists. exact (Hbody w eq_refl).
    + eexists. exact (playGame_no_root w input Hroot w eq_refl).
Qed.

(** X16.  At a node with children, a line that after trimming is a run of
    digits with a value [k] between 1 and the number of children (and within
    [int]) moves the traversal to the [k]-th child, in stored order; a blank
    line is written and the loop goes on from that child. *)
Theorem X16_valid_choice_moves (w : State T) (current : ptr) (cur : Node T)
    (line : string) (rest : list string) :
  reachable w ->
  deref (heap w) current = Some cur ->
  is_empty (trim_copy line) = false -> all_digits (trim_copy line) = true ->
  1 <= value (trim_copy line) <= Z.of_nat (length (children cur)) ->
  value (trim_copy line) <= INT_MAX ->
  exists next,
    children cur !! Z.to_nat (value (trim_copy line) - 1) = Some next /\
    select current line w = Some (next, emit endl w) /\
    playLoop (line :: rest) current w =
      playLoop rest next (emit (prompt_text (heap w) cur +:+ endl) w).
Proof.
  intros Hreach Hcur He Hd Hin Hfit. pose proof (reachable_wf w Hreach) as Hwf.
  destruct (lookup_lt_is_Some_2 (children cur) (Z.to_nat (value (trim_copy line) - 1)))
    as [next Hnext]; [lia|].
  pose proof (select_move (graph w) current cur line next Hcur He Hd Hin Hfit Hnext)
    as Hsel.
  exists next. split_and!; [done|exact (Hsel w eq_refl)|].
  apply (playLoop_continue w current cur); [done| |by apply (wf_children_live w current cur)|done].
  intros Hnil. rewrite Hnil in Hin. simpl in Hin. lia.
Qed.

(** X17.  At a node with children, a line of white space only (the empty
    line among them) is answered with "Please enter a number corresponding to
    your choice.", and a line that after trimming holds any character other
    than a digit (a sign, a letter, a decimal point, inner white space) with
    "Invalid selection. Please enter a number."; in both cases the loop goes
    on from the same node. *)
Theorem X17_blank_or_not_a_number (w : State T) (current : ptr) (cur : Node T)
    (line : string) (rest : list string) :
  reachable w ->
  deref (heap w) current = Some cur -> children cur <> [] ->
  (all_space line = true ->
     playLoop (line :: rest) current w =
       playLoop rest current
         (emit (prompt_text (heap w) cur +:+
                "Please enter a number corresponding to your choice." +:+ endl) w)) /\
  (all_space line = false -> all_digits (trim_copy line) = false ->
     playLoop (line :: rest) current w =
       playLoop rest current
         (emit (prompt_text (heap w) cur +:+
                "Invalid selection. Please enter a number." +:+ endl) w)).
Proof.
  intros Hreach Hcur Hne. pose proof (reachable_wf w Hreach) as Hwf. split.
  - intros Hsp.
    apply (playLoop_continue w current cur); [done..|by apply (wf_children_live w current cur)|].
    apply select_empty. by apply trim_copy_blank.
  - intros Hsp Hd.
    apply (playLoop_continue w current cur); [done..|by apply (wf_children_live w current cur)|].
    apply select_not_number; [by apply trim_copy_not_blank|done].
Qed.

(** X18.  A valid choice that leads to a node without children ends the
    session: the text of that node and the end-of-path notice are written,
    and the lines that follow in the input are not read. *)
Theorem X18_choice_to_leaf_ends (w : State T) (current next : ptr)
    (cur leaf : Node T) (line : string) (rest : list string) :
  reachable w ->
  deref (heap w) current = Some cur ->
  is_empty (trim_copy line) = false -> all_digits (trim_copy line) = true ->
  1 <= value (trim_copy line) <= Z.of_nat (length (children cur)) ->
  value (trim_copy line) <= INT_MAX ->
  children cur !! Z.to_nat (value (trim_copy line) - 1) = Some next ->
  deref (heap w) next = Some leaf -> children leaf = [] ->
  playLoop (line :: rest) current w =
    Some (tt, emit ((prompt_text (heap w) cur +:+ endl) +:+
                    (trim_copy (to_text (data leaf)) +:+ endl) +:+ leaf_notice) w).
Proof.
  intros Hreach Hcur He Hd Hin Hfit Hnext Hleaf Hnil.
  pose proof (reachable_wf w Hreach) as Hwf.
  pose proof (select_move (graph w) current cur line next Hcur He Hd Hin Hfit Hnext)
    as Hsel.
  rewrite (playLoop_continue w current cur line rest next endl);
    [|done| |by apply (wf_children_live w current cur)|done].
  - rewrite (playLoop_leaf _ rest next leaf); [|done..]. by rewrite emit_emit.
  - intros Hz. rewrite Hz in Hin. simpl in Hin. lia.
Qed.

End MorePlay.

Lemma X16_witness :
  reachable (built story) /\
  exists next,
    select (Some 1%positive) " 2 " (built story) = Some (next, emit endl (built story)) /\
    next = Some 3%positive.
Proof.
  assert (Hr : reachable (built story)) by (exists story; vm_compute; reflexivity).
  split; [exact Hr|].
  destruct (X16_valid_choice_moves (built story) (Some 1%positive)
              (mkNode "1" " start " [Some 2%positive; Some 3%positive]) " 2 " [] Hr)
    as (next & Hnext & Hsel & _).
  - vm_compute. reflexivity.
  - vm_compute. reflexivity.
  - vm_compute. reflexivity.
  - vm_compute. split; discriminate.
  - vm_compute. discriminate.
  - exists next. split; [exact Hsel|]. vm_compute in Hnext. congruence.
Defined.

Lemma X17_witness :
  reachable (built story) /\
  playLoop ["-1"] (Some 1%positive) (built story) =
    playLoop [] (Some 1%positive)
      (emit (prompt_text (heap (built story))
               (mkNode "1" " start " [Some 2%positive; Some 3%positive]) +:+
             "Invalid selection. Please enter a number." +:+ endl) (built story)).
Proof.
  assert (Hr : reachable (built story)) by (exists story; vm_compute; reflexivity).
  split; [exact Hr|].
  refine (proj2 (X17_blank_or_not_a_number (built story) (Some 1%positive)
            (mkNode "1" " start " [Some 2%positive; Some 3%positive]) "-1" [] Hr _ _) _ _).
  - vm_compute. reflexivity.
  - discriminate.
  - vm_compute. reflexivity.
  - vm_compute. reflexivity.
Defined.

Lemma X18_witness :
  reachable (built story) /\
  playLoop [" 1 "; "never read"] (Some 1%positive) (built story) =
    Some (tt, emit ((prompt_text (heap (built story))
                       (mkNode "1" " start " [Some 2%positive; Some 3%positive]) +:+ endl) +:+
                    ("left" +:+ endl) +:+ leaf_notice) (built story)).
Proof.
  assert (Hr : reachable (built story)) by (exists story; vm_compute; reflexivity).
  split; [exact Hr|].
  refine (X18_choice_to_leaf_ends (built story) (Some 1%positive) (Some 2%positive)
            (mkNode "1" " start " [Some 2%positive; Some 3%positive])
            (mkNode "2" "left" []) " 1 " ["never read"] Hr _ _ _ _ _ _ _ _).
  - vm_compute. reflexivity.
  - vm_compute. reflexivity.
  - vm_compute. reflexivity.
  - vm_compute. split; discriminate.
  - vm_compute. discriminate.
  - vm_compute. reflexivity.
  - vm_compute. reflexivity.
  - reflexivity.
Defined.


Section Sessions.
Context {T : Type} `{Payload T}.
Implicit Types (w : State T) (g : ptr * gmap string ptr * gmap loc (Node T)).

(** The loop ends at a node without children or at the end of the input. *)
Lemma playLoop_endings w input current :
  wf w -> is_Some (deref (heap w) current) ->
  exists s tail, (tail = leaf_notice \/ tail = eof_notice) /\
    yields (graph w) (playLoop input current) tt (s +:+ tail).
Proof.
  intros Hwf. revert current.
  induction input as [|line rest IH]; intros current [cur Hcur].
  - destruct (children cur) as [|c chs] eqn:Hcs.
    + eexists _, _. split; [by left|]. by apply (yields_playLoop_leaf (graph w) _ _ cur).
    + eexists _, _. split; [by right|].
      apply (yields_playLoop_eof (graph w) _ cur); [done|by rewrite Hcs|].
      by apply (wf_children_live w current cur).
  - destruct (children cur) as [|c chs] eqn:Hcs.
    + eexists _, _. split; [by left|]. by apply (yields_playLoop_leaf (graph w) _ _ cur).
    + destruct current as [l|]; [|done]. simpl in Hcur.
      destruct (select_total w l cur line Hwf Hcur) as (next & s1 & Hsel & Hnext).
      destruct (IH next Hnext) as (s & tail & Htail & Hrest).
      exists (prompt_text (heap w) cur +:+ s1 +:+ s), tail. split; [done|].
      rewrite !append_assoc.
      apply (playLoop_round (graph w) (Some l) cur line rest next); [done| | |done..].
      * by rewrite Hcs.
      * by apply (wf_children_live w (Some l) cur).
Qed.

(** X19.  A session started with a root set ends in one of two ways only:
    with the end-of-path notice of a node without children, or with the
    end-of-input notice; what is written is the opening banner, the rounds,
    that notice and the completion notice. *)
Theorem X19_session_endings (w : State T) (input : list string) :
  reachable w -> root w <> None ->
  exists s tail, (tail = leaf_notice \/ tail = eof_notice) /\
    playGame input w =
      Some (tt, emit ("===== Begin Adventure =====" +:+ endl +:+ endl +:+
                      (s +:+ tail) +:+
                      "===== Adventure Complete =====" +:+ endl) w).
Proof.
  intros Hreach Hr. pose proof (reachable_wf w Hreach) as Hwf.
  destruct (root w) as [l|] eqn:Hroot; [|done].
  destruct (playLoop_endings w input (Some l) Hwf) as (s & tail & Htail & Hloop).
  { by apply (wf_root w Hwf). }
  exists s, tail. split; [exact Htail|].
  assert (Hy : yields (graph w) (playGame input) tt
                 ("===== Begin Adventure =====" +:+ endl +:+ endl +:+
                  (s +:+ tail) +:+ "===== Adventure Complete =====" +:+ endl)).
  { unfold playGame.
    eapply yields_bind_pure; [apply yields_get_root|]. simpl. rewrite Hroot.
    do 3 (eapply yields_bind; [apply yields_print|]).
    eapply yields_bind; [exact Hloop|].
    eapply yields_bind; apply yields_print. }
  exact (Hy w eq_refl).
Qed.

(** In a part of the graph where every node has children, all of them in
    that part, the loop can only end with the input. *)
Lemma playLoop_leafless (S : positive -> Prop) w input l :
  wf w ->
  (forall l, S l -> exists n, heap w !! l = Some n /\ children n <> [] /\
     forall c, c ∈ children n -> exists l', c = Some l' /\ S l') ->
  S l ->
  exists s, yields (graph w) (playLoop input (Some l)) tt (s +:+ eof_notice).
Proof.
  intros Hwf Hclosed. revert l.
  induction input as [|line rest IH]; intros l Hl.
  - destruct (Hclosed l Hl) as (cur & Hcur & Hne & Hch).
    eexists. apply (yields_playLoop_eof (graph w) _ cur); [done..|].
    by apply (wf_children_live w (Some l) cur).
  - destruct (Hclosed l Hl) as (cur & Hcur & Hne & Hch).
    destruct (select_cases w l cur line Hwf Hcur) as (next & s1 & Hsel & Hnext).
    assert (Hin : exists l', next = Some l' /\ S l').
    { destruct Hnext as [->|Hc]; [by exists l|by apply Hch]. }
    destruct Hin as (l' & -> & Hl').
    destruct (IH l' Hl') as (s & Hrest).
    exists (prompt_text (heap w) cur +:+ s1 +:+ s). rewrite !append_assoc.
    apply (playLoop_round (graph w) (Some l) cur line rest (Some l')); [done..| |done|done].
    by apply (wf_children_live w (Some l) cur).
Qed.

(** X20.  The graph may hold cycles, and nothing detects them: from a node
    of a set of nodes that all have children, all of them within the set, a
    session reads every line of the input, whatever the lines are, and ends
    with the end-of-input notice. *)
Theorem X20_leafless_region (S : positive -> Prop) (w : State T)
    (input : list string) (l : positive) :
  reachable w ->
  (forall l, S l -> exists n, heap w !! l = Some n /\ children n <> [] /\
     forall c, c ∈ children n -> exists l', c = Some l' /\ S l') ->
  S l ->
  exists s, playLoop input (Some l) w = Some (tt, emit (s +:+ eof_notice) w).
Proof.
  intros Hreach Hclosed Hl. pose proof (reachable_wf w Hreach) as Hwf.
  destruct (playLoop_leafless S w input l Hwf Hclosed Hl) as [s Hs].
  exists s. exact (Hs w eq_refl).
Qed.

(** X21.  A whole life of a tree is safe: after any construction script,
    printing the tree, playing a session on any input and destroying the tree
    never follow a null or dangling pointer and never delete a node twice,
    and in the end no node is left allocated. *)
Theorem X21_lifecycle (cs : list (@call T)) (input : list string) :
  exists w',
    (run_calls cs >> printAll >> playGame input >> Tree_destroy) Tree_new
      = Some (tt, w') /\
    heap w' = ∅ /\ nodesMap w' = ∅ /\ root w' = None.
Proof.
  destruct (run_calls_wf cs Tree_new wf_Tree_new) as (w & Hrun & Hwf).
  destruct (readers_return w input Hwf) as [[s1 Hprint] _].
  pose proof (wf_emit s1 w Hwf) as Hwf1.
  destruct (readers_return (emit s1 w) input Hwf1) as [_ [s2 Hplay]].
  pose proof (wf_emit s2 _ Hwf1) as Hwf2.
  destruct (Tree_destroy_spec (emit s2 (emit s1 w))
              (map_to_list (nodesMap (emit s2 (emit s1 w)))) Hwf2 (reflexivity _))
    as (w' & Hdestroy & Hh & Hm & Hr & _).
  exists w'. split; [|done].
  unfold bind. rewrite Hrun, Hprint, Hplay. exact Hdestroy.
Qed.

End Sessions.

Lemma X8_witness :
  reachable (built story) /\
  exists w', addNode "pear" "2" "x" (built story) = Some (tt, w') /\
    payload w' "pear" = Some EmptyString.
Proof.
  assert (Hr : reachable (built story)) by (exists story; vm_compute; reflexivity).
  split; [exact Hr|].
  destruct (X8_addNode_parent_payload (built story) "pear" "2" "x" Hr) as (w' & Hrun & Hp).
  exists w'. split; [exact Hrun|]. rewrite Hp. vm_compute. reflexivity.
Defined.

Lemma X9_witness :
  reachable (built story) /\
  exists w' lc pn',
    addNode "1" "apple" "x" (built story) = Some (tt, w') /\
    nodesMap w' !! "apple" = Some (Some lc) /\ node_at w' "1" = Some pn' /\
    children pn' = [Some 2%positive; Some 3%positive; Some 4%positive].
Proof.
  assert (Hr : reachable (built story)) by (exists story; vm_compute; reflexivity).
  split; [exact Hr|].
  destruct (X9_addNode_appends_edge (built story) "1" "apple" "x" Hr)
    as (w' & lc & pn' & Hrun & Hc & Hp & Hch & _ & Hoth).
  exists w', lc, pn'. split_and!; [done..|].
  assert (Hlc : lc = 4%positive).
  { assert (Hrun' : addNode "1" "apple" "x" (built story) = Some (tt, w')) by exact Hrun.
    vm_compute in Hrun'. injection Hrun' as <-. vm_compute in Hc. congruence. }
  subst lc. rewrite Hch. vm_compute. reflexivity.
Defined.

Lemma X10_witness :
  reachable (built story) /\
  exists w' lc na nb,
    (addNode "1" "7" "x" >> addNode "apple" "7" "y") (built story) = Some (tt, w') /\
    nodesMap w' !! "7" = Some (Some lc) /\
    node_at w' "1" = Some na /\ node_at w' "apple" = Some nb /\
    Some lc ∈ children na /\ Some lc ∈ children nb.
Proof.
  assert (Hr : reachable (built story)) by (exists story; vm_compute; reflexivity).
  split; [exact Hr|].
  exact (X10_shared_child (built story) "1" "apple" "7" "x" "y" Hr).
Defined.

Lemma X11_witness :
  reachable (built story) /\
  exists w', run_calls [AddNode "1" "7" "x"; CreateRoot "2" "y"] (built story) = Some (tt, w') /\
    exists n', heap w' !! 1%positive = Some n' /\ children n' !! 1%nat = Some (Some 3%positive).
Proof.
  assert (Hr : reachable (built story)) by (exists story; vm_compute; reflexivity).
  split; [exact Hr|].
  destruct (X11_construction_keeps_edges (built story)
              [AddNode "1" "7" "x"; CreateRoot "2" "y"] Hr) as (w' & Hrun & _ & Hedges).
  exists w'. split; [exact Hrun|].
  destruct (Hedges 1%positive (mkNode "1" " start " [Some 2%positive; Some 3%positive])
              1%nat (Some 3%positive)) as (n' & Hn' & _ & Hi).
  - vm_compute. reflexivity.
  - reflexivity.
  - exists n'. split; [exact Hn'|exact Hi].
Defined.

Lemma X12_witness :
  reachable (built story) /\
  exists w', run_calls [AddNode "1" "2" "other"; CreateRoot "10" "y"] (built story)
               = Some (tt, w') /\
    payload w' "2" = Some "left".
Proof.
  assert (Hr : reachable (built story)) by (exists story; vm_compute; reflexivity).
  split; [exact Hr|].
  refine (X12_payload_kept (built story) [AddNode "1" "2" "other"; CreateRoot "10" "y"]
            "2" (mkNode "2" "left" []) Hr _ _).
  - repeat constructor; simpl; [tauto|discriminate].
  - vm_compute. reflexivity.
Defined.

Lemma X19_witness :
  reachable (built story) /\ root (built story) <> None /\
  exists s tail, (tail = leaf_notice \/ tail = eof_notice) /\
    playGame ["x"; "2"] (built story) =
      Some (tt, emit ("===== Begin Adventure =====" +:+ endl +:+ endl +:+
                      (s +:+ tail) +:+
                      "===== Adventure Complete =====" +:+ endl) (built story)).
Proof.
  assert (Hr : reachable (built story)) by (exists story; vm_compute; reflexivity).
  assert (Hroot : root (built story) <> None) by (vm_compute; discriminate).
  split; [exact Hr|]. split; [exact Hroot|].
  exact (X19_session_endings (built story) ["x"; "2"] Hr Hroot).
Defined.

Lemma X20_witness :
  reachable (built self_link) /\
  exists s, playLoop ["1"; "x"; "1"] (Some 1%positive) (built self_link)
              = Some (tt, emit (s +:+ eof_notice) (built self_link)).
Proof.
  assert (Hr : reachable (built self_link)) by (exists self_link; vm_compute; reflexivity).
  split; [exact Hr|].
  refine (X20_leafless_region (fun l => l = 1%positive) (built self_link)
            ["1"; "x"; "1"] 1%positive Hr _ eq_refl).
  intros l ->. exists (mkNode "a" EmptyString [Some 1%positive]).
  split; [vm_compute; reflexivity|]. split; [discriminate|].
  intros c Hc. simpl in Hc. apply list_elem_of_singleton in Hc. by exists 1%positive.
Defined.
